(** * The blinking-eyes animator of the terminal assistant

    A shallow embedding of [EyeAnimator], [main_loop], [handle_command] and
    the memory commands of [src/agent.py] (the same class appears verbatim
    in [src/claudeagent.py] and [src/grokagent.py]).

    - Python floats are IEEE binary64 values: Rocq's primitive [float],
      with [x >= y] read as [y <=? x].
    - The three [threading.Event] objects are booleans of a record; the
      attribute [_state] is a float of the same record.
    - Effects are explicit: every atomic action of a thread is appended to a
      trace of [event]s, and everything a thread obtains from outside (the
      clock, the random generator, calls made by other threads on the
      animator's public methods) comes from an environment [env] that is
      consulted slot by slot.
    - The unbounded [while] loop of [_run] is observed for a bounded number
      of loop-head checks. *)

From Stdlib Require Import List String Ascii Bool ZArith Lia Floats.
Import ListNotations.
Set Warnings "-inexact-float".

(** ** Python float comparisons *)

Module PyFloat.
Open Scope float_scope.

(** [x >= y] and [x < y] on Python floats. *)
Definition ge (x y : float) : bool := (y <=? x).
Definition lt (x y : float) : bool := (x <? y).

(** [0.0 <= v <= 1.0] *)
Definition in_unit (v : float) : bool := (0.0 <=? v) && (v <=? 1.0).

End PyFloat.

(** ** Module constants *)

Open Scope string_scope.

Definition nl : string := String (ascii_of_nat 10) EmptyString.
Definition esc : string := String (ascii_of_nat 27) EmptyString.

Definition EYES_REFRESH : float := 0.12%float.
Definition SCREEN_CLEAR : string := esc ++ "[2J" ++ esc ++ "[H".

Definition EYE_OPEN : list string :=
  [ "   _____       _____   ";
    "  /     \_____/     \  ";
    " /                   \ ";
    "|   O           O     |";
    " \                   / ";
    "  \_____     _____/   ";
    "        \___/         " ].

Definition EYE_HALF : list string :=
  [ "   _____       _____   ";
    "  /     \_____/     \  ";
    " /                   \ ";
    "|   -           -     |";
    " \                   / ";
    "  \_____     _____/   ";
    "        \___/         " ].

Definition EYE_CLOSED : list string :=
  [ "   _____       _____   ";
    "  /     \_____/     \  ";
    " /                   \ ";
    "|   -------------     |";
    " \                   / ";
    "  \_____     _____/   ";
    "        \___/         " ].

Definition FACE_PADDING : string := "      ".

(** ** The frame renderer: [EyeAnimator._draw] *)

(** The two-eyes assembly at the end of [_draw]:
    [lines.append(FACE_PADDING + l + "   " + l)] for each line, joined by
    newlines. *)
Definition assemble (art : list string) : string :=
  String.concat nl (map (fun l => FACE_PADDING ++ l ++ "   " ++ l) art).

Definition _draw (level : float) : string :=
  let art :=
    if PyFloat.ge level 0.66 then EYE_OPEN
    else if PyFloat.ge level 0.33 then EYE_HALF
    else EYE_CLOSED in
  assemble art.

(** ** Events, flags and the animator's state *)

(** The three [threading.Event] attributes [_stop], [_blink], [_auto]. *)
Inductive flag := Stop | Blink | Auto.

(** Where a terminal write comes from: a frame of the animation, the prompt
    of the session loop, a response (the result of a command, or the screen
    clear that answers the [clear] command), or anything else (the bare
    newlines and the farewell of [main_loop], the note of [speak]). *)
Inductive out_kind := Frame | Prompt | Response | Other.

(** What [handle_command] did with a line: it returned [res] (a string or
    [None]), raised [SystemExit], raised an [Exception] whose text is [e], or
    raised another [BaseException] (a [KeyboardInterrupt] while a command
    runs). *)
Inductive cmd_outcome :=
| Returns (res : option string)
| RaisesSystemExit
| RaisesException (e : string)
| RaisesBaseException.

(** A call of one of the public methods of the animator: [trigger_blink()],
    [set_auto(enabled)], [stop()]. *)
Inductive call := TriggerBlink | SetAuto (enabled : bool) | StopCall.

(** The atomic actions of a thread, in the order it performs them. *)
Inductive event :=
| EvTime (t : float)                   (* time.time() returned t *)
| EvUniform (lo hi r : float)          (* random.uniform(lo, hi) returned r *)
| EvIsSet (f : flag) (b : bool)        (* f.is_set() returned b *)
| EvSet (f : flag)                     (* f.set() *)
| EvClear (f : flag)                   (* f.clear() *)
| EvAcquire                            (* entering [with self._lock:] *)
| EvRelease                            (* leaving it *)
| EvGetState (v : float)               (* a read of self._state *)
| EvSetState (v : float)               (* self._state = v *)
| EvWrite (k : out_kind) (s : string)  (* sys.stdout.write(s), print *)
| EvFlush                              (* sys.stdout.flush() *)
| EvSleep (d : float)                  (* time.sleep(d) *)
| EvJoin (timeout : Z)                 (* self._thread.join(timeout) *)
| EvReadline (line : string)           (* sys.stdin.readline() returned line *)
| EvInterrupted                        (* readline raised KeyboardInterrupt *)
| EvHandle (line : string) (o : cmd_outcome)  (* handle_command(line) *)
| EvSaveMemory                         (* save_memory(memory) *)
| EvReadRaises                         (* readline raised another exception *)
| EvCall (c : call).                   (* a method of the animator is called *)

Definition trace := list event.

(** The attributes of an [EyeAnimator] that carry state. The lock and the
    thread object appear through [EvAcquire], [EvRelease] and [EvJoin]. *)
Record EyeAnimator := mkEyeAnimator {
  _stop : bool;
  _blink : bool;
  _auto : bool;
  _state : float
}.

(** [EyeAnimator.__init__]: no flag but [_auto] is set, the eyes are open.
    The constructor builds the lock after this assignment and starts the
    thread last, so the record below is what [_run] starts from. *)
Definition __init__ : EyeAnimator :=
  {| _stop := false; _blink := false; _auto := true; _state := 1.0%float |}.

Definition get_flag (f : flag) (self : EyeAnimator) : bool :=
  match f with
  | Stop => _stop self
  | Blink => _blink self
  | Auto => _auto self
  end.

Definition put_flag (f : flag) (b : bool) (self : EyeAnimator) : EyeAnimator :=
  match f with
  | Stop => {| _stop := b; _blink := _blink self; _auto := _auto self;
               _state := _state self |}
  | Blink => {| _stop := _stop self; _blink := b; _auto := _auto self;
                _state := _state self |}
  | Auto => {| _stop := _stop self; _blink := _blink self; _auto := b;
               _state := _state self |}
  end.

Definition put_state (v : float) (self : EyeAnimator) : EyeAnimator :=
  {| _stop := _stop self; _blink := _blink self; _auto := _auto self;
     _state := v |}.

(** The public methods, as other threads call them. [trigger_blink] is
    [self._blink.set()]; [set_auto] sets or clears [_auto]; of [stop], a
    caller in another thread changes [_stop] (its [join] is in [stop]
    below). [apply_call] is the effect of a [call] on the animator. *)
Definition trigger_blink (self : EyeAnimator) : EyeAnimator :=
  put_flag Blink true self.

Definition set_auto (enabled : bool) (self : EyeAnimator) : EyeAnimator :=
  if enabled then put_flag Auto true self else put_flag Auto false self.

Definition apply_call (c : call) (self : EyeAnimator) : EyeAnimator :=
  match c with
  | TriggerBlink => trigger_blink self
  | SetAuto enabled => set_auto enabled self
  | StopCall => put_flag Stop true self
  end.

Definition apply_calls (cs : list call) (self : EyeAnimator) : EyeAnimator :=
  fold_left (fun a c => apply_call c a) cs self.

(** ** The environment and the monad of a thread *)

(** One slot of the environment: the calls other threads made on the
    animator since the previous slot, and the float the next clock reading
    or random draw returns. *)
Record slot := mkSlot { calls : list call; value : float }.

Definition env := nat -> slot.

Record world := mkWorld { animator : EyeAnimator; cursor : nat }.

(** State passing over the world, reading the environment, writing a trace. *)
Definition M (A : Type) : Type := env -> world -> A * world * trace.

Definition ret {A} (a : A) : M A := fun _ w => (a, w, []).

Definition bind {A B} (m : M A) (k : A -> M B) : M B :=
  fun e w =>
    let '(a, w1, t1) := m e w in
    let '(b, w2, t2) := k a e w1 in
    (b, w2, (t1 ++ t2)%list).

Declare Scope py_scope.
Delimit Scope py_scope with py.
Notation "x <- m ;; k" := (bind m (fun x => k))
  (at level 61, m at next level, right associativity) : py_scope.
Notation "m ;; k" := (bind m (fun _ => k))
  (at level 61, right associativity) : py_scope.
Open Scope py_scope.

Definition result {A} (m : M A) (e : env) (w : world) : A := fst (fst (m e w)).
Definition final {A} (m : M A) (e : env) (w : world) : world := snd (fst (m e w)).
Definition events {A} (m : M A) (e : env) (w : world) : trace := snd (m e w).

(** Taking the next slot: the calls of other threads land first. *)
Definition next_slot : M slot :=
  fun e w =>
    let s := e (cursor w) in
    (s, {| animator := apply_calls (calls s) (animator w);
           cursor := S (cursor w) |}, []).

Definition emit (ev : event) : M unit := fun _ w => (tt, w, [ev]).

Definition update (f : EyeAnimator -> EyeAnimator) : M unit :=
  fun _ w => (tt, {| animator := f (animator w); cursor := cursor w |}, []).

Definition time : M float :=
  s <- next_slot ;; emit (EvTime (value s)) ;; ret (value s).

Definition uniform (lo hi : float) : M float :=
  s <- next_slot ;; emit (EvUniform lo hi (value s)) ;; ret (value s).

Definition is_set (f : flag) : M bool :=
  _ <- next_slot ;;
  fun e w => let b := get_flag f (animator w) in (b, w, [EvIsSet f b]).

Definition clear (f : flag) : M unit :=
  _ <- next_slot ;; update (put_flag f false) ;; emit (EvClear f).

Definition set (f : flag) : M unit :=
  _ <- next_slot ;; update (put_flag f true) ;; emit (EvSet f).

Definition get_state : M float :=
  fun e w => let v := _state (animator w) in (v, w, [EvGetState v]).

Definition set_state (v : float) : M unit :=
  update (put_state v) ;; emit (EvSetState v).

Definition sleep (d : float) : M unit := emit (EvSleep d).
Definition write (k : out_kind) (s : string) : M unit := emit (EvWrite k s).
Definition print (k : out_kind) (s : string) : M unit := emit (EvWrite k (s ++ nl)).
Definition flush : M unit := emit EvFlush.

(** [with self._lock: body] *)
Definition with_lock {A} (body : M A) : M A :=
  emit EvAcquire ;; r <- body ;; emit EvRelease ;; ret r.

(** [for x in l: body(x)] *)
Fixpoint for_each {A} (l : list A) (body : A -> M unit) : M unit :=
  match l with
  | [] => ret tt
  | x :: l' => body x ;; for_each l' body
  end.

(** ** The blink sequencer: [EyeAnimator._do_blink] *)

Definition steps : list float := [0.8; 0.5; 0.2; 0.0]%float.

Definition _do_blink : M unit :=
  (* closing *)
  for_each steps (fun s =>
    with_lock (set_state s) ;;
    sleep 0.04) ;;
  (* closed pause *)
  r <- uniform 0.0 0.12 ;;
  sleep (0.08 + r) ;;
  (* opening *)
  for_each (rev steps) (fun s =>
    with_lock (set_state s) ;;
    sleep 0.04) ;;
  with_lock (set_state 1.0).

(** ** The animation loop: [EyeAnimator._run] *)

(** [if self._auto.is_set() and now >= last_auto_blink: ...]; the value is
    the local variable [last_auto_blink] after the statement. *)
Definition auto_blink (now last_auto_blink : float) : M float :=
  a <- is_set Auto ;;
  if a && PyFloat.ge now last_auto_blink then
    _do_blink ;;
    r <- uniform 2.0 5.5 ;;
    ret (now + r)%float
  else ret last_auto_blink.

(** [if self._blink.is_set(): self._blink.clear(); self._do_blink()] *)
Definition forced_blink : M unit :=
  b <- is_set Blink ;;
  if b then
    clear Blink ;;
    _do_blink
  else ret tt.

(** The redraw under the lock. *)
Definition redraw : M unit :=
  with_lock (
    v <- get_state ;;
    let art := _draw v in
    write Frame SCREEN_CLEAR ;;
    write Frame (art ++ nl ++ nl) ;;
    flush).

(** One pass through the body of the [while] loop. *)
Definition _run_iteration (last_auto_blink : float) : M float :=
  now <- time ;;
  last_auto_blink <- auto_blink now last_auto_blink ;;
  forced_blink ;;
  redraw ;;
  sleep EYES_REFRESH ;;
  ret last_auto_blink.

(** [while not self._stop.is_set(): ...], observed for at most [fuel]
    loop-head checks; the value says whether the loop was seen to exit. *)
Fixpoint _run_loop (fuel : nat) (last_auto_blink : float) : M bool :=
  match fuel with
  | O => ret false
  | S fuel' =>
      s <- is_set Stop ;;
      if s then ret true
      else
        last_auto_blink <- _run_iteration last_auto_blink ;;
        _run_loop fuel' last_auto_blink
  end.

Definition _run (fuel : nat) : M bool :=
  t <- time ;;
  r <- uniform 0.5 2.5 ;;
  _run_loop fuel (t + r)%float.

(** [EyeAnimator.stop], run by the calling thread. *)
Definition stop : M unit :=
  set Stop ;;
  emit (EvJoin 1).

(** ** The host session loop: [main_loop] *)

(** What [handle_command] does, besides returning or raising, that the
    terminal and the animator see: the note [speak] prints as its last
    resort, when neither speech engine took the text
    ([print("(no TTS available) ->", text)], outside the lock), and the
    calls of [trigger_blink] and [set_auto]. *)
Inductive action :=
| Note (text : string)
| Call (c : call).

(** What one [readline] of the session loop meets: a line, together with
    what [handle_command] does with it (its outcome and its actions, in
    order; [handle_command] itself is embedded further down and supplies
    them in [session_script]); a Ctrl+C while the read blocks; or another
    exception raised by [readline] (an [OSError], a [UnicodeDecodeError]).
    After the script, [readline] returns the empty string (end of
    input). Terminal writes are taken to succeed. *)
Inductive stdin_event :=
| Line (line : string) (o : cmd_outcome) (acts : list action)
| CtrlC
| ReadRaises.

(** [line.rstrip("\n")] *)
Fixpoint rstrip_nl (s : string) : string :=
  match s with
  | EmptyString => EmptyString
  | String c s' =>
      let r := rstrip_nl s' in
      if Ascii.eqb c "010"%char && String.eqb r "" then "" else String c r
  end.

(** How the [while True] loop is left: by [break], or by an exception that
    no handler of the loop catches. *)
Inductive leave := Break | Propagate.

(** [if res != "": with animator._lock: print(res)] *)
Definition respond (res : string) : M unit :=
  if negb (String.eqb res "") then with_lock (print Response res) else ret tt.

(** One action of a command, performed by the host thread while
    [handle_command] runs. *)
Definition act (a : action) : M unit :=
  match a with
  | Note text => print Other ("(no TTS available) -> " ++ text)
  | Call c => update (apply_call c) ;; emit (EvCall c)
  end.

Fixpoint main_loop_while (stdin : list stdin_event) : M leave :=
  with_lock (write Prompt ">>> " ;; flush) ;;
  match stdin with
  | [] =>
      emit (EvReadline "") ;;
      print Other "" ;; ret Break
  | CtrlC :: rest =>
      emit EvInterrupted ;;
      print Other "" ;; main_loop_while rest
  | ReadRaises :: rest =>
      emit EvReadRaises ;; ret Propagate
  | Line line o acts :: rest =>
      emit (EvReadline line) ;;
      if String.eqb line "" then print Other "" ;; ret Break
      else
        let line := rstrip_nl line in
        emit (EvHandle line o) ;;
        for_each acts act ;;
        match o with
        | RaisesSystemExit => ret Break
        | RaisesBaseException => ret Propagate
        | RaisesException e =>
            respond ("Error handling command: " ++ e) ;;
            main_loop_while rest
        | Returns None =>
            with_lock (write Response SCREEN_CLEAR ;; flush) ;;
            main_loop_while rest
        | Returns (Some res) =>
            respond res ;;
            main_loop_while rest
        end
  end.

(** How a call completes. *)
Inductive completion := ReturnsNormally | Raises.

(** [try: while True: ... finally: animator.stop(); print(...);
    save_memory(memory)]. [save] is what the [save_memory] of the [finally]
    clause does: [None] when it returns, the text of its exception when it
    raises. Nothing guards it, so its exception leaves [main_loop], as does
    an exception that left the loop. The [print] before it is a terminal
    write and is taken to succeed. *)
Definition main_loop (stdin : list stdin_event) (save : option string)
  : M completion :=
  l <- main_loop_while stdin ;;
  stop ;;
  print Other (nl ++ "Goodbye — memory saved.") ;;
  emit EvSaveMemory ;;
  ret (match l, save with
       | Break, None => ReturnsNormally
       | _, _ => Raises
       end).

(** ** Observations on traces *)

(** The values assigned to [_state], in order. *)
Fixpoint writes (tr : trace) : list float :=
  match tr with
  | [] => []
  | EvSetState v :: tr' => v :: writes tr'
  | _ :: tr' => writes tr'
  end.

(** The value of [_state] after the assignments of a trace. *)
Definition state_after (v0 : float) (tr : trace) : float :=
  last (writes tr) v0.

(** The assignments of one blink: the closing steps, the same steps in
    reverse, and the final [1.0]. *)
Definition blink_writes : list float := (steps ++ rev steps ++ [1.0%float])%list.

(** A constant environment for examples: no calls, every reading 0. *)
Definition quiet : env := fun _ => {| calls := []; value := 0.0%float |}.
Definition w0 : world := {| animator := __init__; cursor := 0 |}.

(** ** The output mutex *)

(** The actions the lock is there for: reads and assignments of [_state],
    and writes of a frame, the prompt or a response to the terminal. *)
Definition guarded (ev : event) : bool :=
  match ev with
  | EvGetState _ | EvSetState _ => true
  | EvWrite Frame _ | EvWrite Prompt _ | EvWrite Response _ => true
  | _ => false
  end.

(** One thread's trace, scanned with whether the thread holds the lock:
    [None] when a guarded action happens outside [with self._lock:], when
    the lock is taken twice or released without being held; otherwise
    whether the lock is held at the end. *)
Fixpoint lock_scan (held : bool) (tr : trace) : option bool :=
  match tr with
  | [] => Some held
  | EvAcquire :: tr' => if held then None else lock_scan true tr'
  | EvRelease :: tr' => if held then lock_scan false tr' else None
  | ev :: tr' =>
      if guarded ev && negb held then None else lock_scan held tr'
  end.

(** The two threads of control, and a run of both as one sequence. *)
Inductive thread := Animation | Host.

Definition thread_eqb (s t : thread) : bool :=
  match s, t with
  | Animation, Animation | Host, Host => true
  | _, _ => false
  end.

Definition schedule := list (thread * event).

Definition project (t : thread) (sch : schedule) : trace :=
  map snd (filter (fun p => thread_eqb (fst p) t) sch).

(** The lock as [threading.Lock] behaves: it has at most one owner, it is
    acquired only when free and released by its owner. [None] when the
    sequence is not a run of the lock, otherwise the owner at the end. *)
Fixpoint mutex_scan (owner : option thread) (sch : schedule)
  : option (option thread) :=
  match sch with
  | [] => Some owner
  | (t, EvAcquire) :: sch' =>
      match owner with
      | None => mutex_scan (Some t) sch'
      | Some _ => None
      end
  | (t, EvRelease) :: sch' =>
      match owner with
      | Some t' => if thread_eqb t t' then mutex_scan None sch' else None
      | None => None
      end
  | _ :: sch' => mutex_scan owner sch'
  end.

(** The owner of the lock after a run of it ([None] also when the sequence
    is not a run of the lock). *)
Definition owner_after (sch : schedule) : option thread :=
  match mutex_scan None sch with
  | Some o => o
  | None => None
  end.

(** ** The shape of the traces *)

(** One step of a blink: the assignment under the lock, then the 40 ms
    sleep outside it. *)
Definition step_events (s : float) : trace :=
  [EvAcquire; EvSetState s; EvRelease; EvSleep 0.04].

(** The events of one blink whose closed pause drew [r]. *)
Definition blink_events (r : float) : trace :=
  (flat_map step_events steps ++
   [EvUniform 0.0 0.12 r; EvSleep (0.08 + r)] ++
   flat_map step_events (rev steps) ++
   [EvAcquire; EvSetState 1.0; EvRelease])%list.

(** The events of a redraw that finds [_state = v]. *)
Definition redraw_events (v : float) : trace :=
  [EvAcquire; EvGetState v; EvWrite Frame SCREEN_CLEAR;
   EvWrite Frame (_draw v ++ nl ++ nl); EvFlush; EvRelease].

(** The events of the shutdown in the [finally] of [main_loop]. *)
Definition shutdown_events : trace :=
  [EvSet Stop; EvJoin 1; EvWrite Other (nl ++ "Goodbye — memory saved." ++ nl);
   EvSaveMemory].

(** The events of the actions of a command. *)
Definition act_events (a : action) : trace :=
  match a with
  | Note text => [EvWrite Other (("(no TTS available) -> " ++ text) ++ nl)]
  | Call c => [EvCall c]
  end.

(** The calls on the animator among the actions of a command. *)
Fixpoint calls_of (acts : list action) : list call :=
  match acts with
  | [] => []
  | Call c :: acts' => c :: calls_of acts'
  | Note _ :: acts' => calls_of acts'
  end.

(** The world after the actions of a command. *)
Definition after_acts (acts : list action) (w : world) : world :=
  {| animator := apply_calls (calls_of acts) (animator w);
     cursor := cursor w |}.

(** The events of printing the prompt, and those of answering a command
    whose handling had outcome [o]. *)
Definition prompt_events : trace :=
  [EvAcquire; EvWrite Prompt ">>> "; EvFlush; EvRelease].

Definition response_events (o : cmd_outcome) : trace :=
  match o with
  | Returns None => [EvAcquire; EvWrite Response SCREEN_CLEAR; EvFlush; EvRelease]
  | Returns (Some res) =>
      if String.eqb res "" then []
      else [EvAcquire; EvWrite Response (res ++ nl); EvRelease]
  | RaisesException e =>
      [EvAcquire; EvWrite Response (("Error handling command: " ++ e) ++ nl);
       EvRelease]
  | RaisesSystemExit | RaisesBaseException => []
  end.

(** No call of the slots enables auto-blink: nobody calls [set_auto(True)]. *)
Definition enables (c : call) : bool :=
  match c with SetAuto true => true | _ => false end.

Definition never_enables (e : env) : Prop :=
  forall i, existsb enables (calls (e i)) = false.

(** Nobody calls [trigger_blink]. *)
Definition triggers (c : call) : bool :=
  match c with TriggerBlink => true | _ => false end.

Definition never_triggers (e : env) : Prop :=
  forall i, existsb triggers (calls (e i)) = false.

(** How often a trace consumes the forced-blink flag: the number of
    [self._blink.clear()], each of which is followed by one blink. *)
Definition is_clear_blink (ev : event) : bool :=
  match ev with EvClear Blink => true | _ => false end.

Definition clears (tr : trace) : nat :=
  List.length (filter is_clear_blink tr).

(** The animator after [trigger_blink()] was called on it, and the one
    after [set_auto(False)], before an iteration starts. *)
Definition w_triggered : world :=
  {| animator := trigger_blink __init__; cursor := 0 |}.

Definition w_disabled_triggered : world :=
  {| animator := trigger_blink (set_auto false __init__); cursor := 0 |}.

Open Scope list_scope.

(** ** Properties of traces and runs used in the statements *)

(** A property of traces that holds of [[]] and of concatenations holds of
    every sequential composition. *)
Definition closed_under_app (P : trace -> Prop) : Prop :=
  P [] /\ forall t1 t2, P t1 -> P t2 -> P (t1 ++ t2)%list.

(** The two properties carried through the loop: every assignment is in
    [[0.0, 1.0]], and the thread keeps the lock discipline. *)
Definition writes_in_unit (tr : trace) : Prop :=
  Forall (fun v => PyFloat.in_unit v = true) (writes tr).

Definition keeps_lock (tr : trace) : Prop := lock_scan false tr = Some false.

(** Events that neither touch the lock nor [_state] nor the terminal. *)
Definition neutral (ev : event) : bool :=
  match ev with
  | EvAcquire | EvRelease | EvGetState _ | EvSetState _ | EvWrite _ _ => false
  | _ => true
  end.

(** The replay of the assignments of a trace gives the state the run ends
    in: [state_after] on a prefix is a state the run goes through. *)
Definition tracks {A} (m : M A) : Prop :=
  forall e w,
    _state (animator (final m e w)) =
    state_after (_state (animator w)) (events m e w).

(** The specification's reading of the loop body: the forced-blink test as
    the [else] of the auto-blink test, so that a tick on which the
    auto-blink fires leaves the flag alone and runs one blink only. *)
Definition forced_is_else_branch : Prop :=
  forall (e : env) (w : world) (last : float),
    result (is_set Auto) e (final time e w)
      && PyFloat.ge (result time e w) last = true ->
    writes (events (_run_iteration last) e w) = blink_writes /\
    ~ In (EvClear Blink) (events (_run_iteration last) e w).

(** What a trace shows when no autonomous blink ran: every test of the gate
    found it closed, no deadline was drawn, and the assignments are those
    of one blink per consumed request. *)
Definition only_forced_blinks (tr : trace) : Prop :=
  (forall b, In (EvIsSet Auto b) tr -> b = false) /\
  (forall r, ~ In (EvUniform 2.0 5.5 r) tr) /\
  writes tr = List.concat (repeat blink_writes (clears tr)).

(** Whether thread [t] is the owner. *)
Definition holds (o : option thread) (t : thread) : bool :=
  match o with
  | Some t' => thread_eqb t t'
  | None => false
  end.

(** The terminal writes of the host: all of them, and those it makes under
    the lock (the prompt, a response, the screen clear that answers
    [clear]). *)
Definition is_write (ev : event) : bool :=
  match ev with EvWrite _ _ => true | _ => false end.

Definition is_reply (ev : event) : bool :=
  match ev with
  | EvWrite Prompt _ | EvWrite Response _ => true
  | _ => false
  end.

(** The frame writes of one thread's trace come in pairs (the screen
    clear, then the face) with nothing of the thread between the two:
    scanned with whether the first write of a frame is out and the second
    is not, [None] when something else comes between them, otherwise the
    state at the end. *)
Fixpoint frame_scan (inside : bool) (tr : trace) : option bool :=
  match tr with
  | [] => Some inside
  | EvWrite Frame _ :: tr' => frame_scan (negb inside) tr'
  | _ :: tr' => if inside then None else frame_scan false tr'
  end.

(** Whether, in a run of both threads, a terminal write of the host among
    [hw] falls between the two writes of a frame of the animation: the
    frame reaches the terminal in two parts. *)
Fixpoint frame_split (hw : event -> bool) (inside : bool) (sch : schedule)
  : bool :=
  match sch with
  | [] => false
  | (Animation, EvWrite Frame _) :: sch' => frame_split hw (negb inside) sch'
  | (Animation, _) :: sch' => frame_split hw inside sch'
  | (Host, ev) :: sch' => (inside && hw ev) || frame_split hw inside sch'
  end.

(** The specification's reading of the lock: in every run of the two
    threads that obeys it, no terminal write of the host falls between the
    two writes of a frame. *)
Definition prints_never_interleave : Prop :=
  forall (fuel : nat) (stdin : list stdin_event) (save : option string)
         (e e' : env) (w w' : world) (sch : schedule),
    project Animation sch = events (_run fuel) e w ->
    project Host sch = events (main_loop stdin save) e' w' ->
    mutex_scan None sch <> None ->
    frame_split is_write false sch = false.

(** A run of both threads in which Ctrl+C is pressed at the prompt: the
    host prints its prompt and is interrupted; the animation loop runs one
    iteration, and between the two writes of its frame the host prints the
    empty line that follows the interrupt; then the host goes on to the end
    of input and shuts down. The screen clear of the frame is the 47th
    event of the animation's trace. *)
Definition split_schedule : schedule :=
  map (pair Host) (firstn 5 (events (main_loop [CtrlC] None) quiet w0)) ++
  map (pair Animation) (firstn 47 (events (_run 1) quiet w0)) ++
  map (pair Host)
    (firstn 1 (skipn 5 (events (main_loop [CtrlC] None) quiet w0))) ++
  map (pair Animation) (skipn 47 (events (_run 1) quiet w0)) ++
  map (pair Host) (skipn 6 (events (main_loop [CtrlC] None) quiet w0)).

(** ** Further observations, for the properties beyond the claims *)

(** [stop()] among the calls of other threads, and the argument of the last
    [set_auto] among them ([d] when there is none). *)
Definition is_stop (c : call) : bool :=
  match c with StopCall => true | _ => false end.

Fixpoint last_auto (cs : list call) (d : bool) : bool :=
  match cs with
  | [] => d
  | SetAuto enabled :: cs' => last_auto cs' enabled
  | _ :: cs' => last_auto cs' d
  end.

(** What a frame event may be when the eyes are drawn open: the state read
    is [1.0] and the text written is the screen clear or the open face. *)
Definition shows_open_eyes (ev : event) : Prop :=
  match ev with
  | EvGetState v => v = 1.0%float
  | EvWrite Frame s =>
      s = SCREEN_CLEAR \/ s = (assemble EYE_OPEN ++ nl ++ nl)%string
  | _ => True
  end.

(** Actions that can take long: sleeping, joining the thread, waiting for a
    line, running a command, writing the memory file. *)
Definition blocking (ev : event) : bool :=
  match ev with
  | EvSleep _ | EvJoin _ | EvReadline _ | EvInterrupted | EvHandle _ _
  | EvSaveMemory => true
  | _ => false
  end.

(** One thread's trace, scanned like [lock_scan], failing when the thread
    performs a blocking action while it holds the lock. *)
Fixpoint calm_scan (held : bool) (tr : trace) : option bool :=
  match tr with
  | [] => Some held
  | EvAcquire :: tr' => if held then None else calm_scan true tr'
  | EvRelease :: tr' => if held then calm_scan false tr' else None
  | ev :: tr' => if blocking ev && held then None else calm_scan held tr'
  end.

Definition never_blocks_locked (tr : trace) : Prop :=
  calm_scan false tr = Some false.

(** The events of one turn of the session loop that does not end it. *)
Definition turn_events (x : stdin_event) : trace :=
  prompt_events ++
  match x with
  | CtrlC => [EvInterrupted; EvWrite Other nl]
  | ReadRaises => [EvReadRaises]
  | Line line o acts =>
      [EvReadline line; EvHandle (rstrip_nl line) o] ++
      flat_map act_events acts ++ response_events o
  end.

(** A turn after which the loop goes on: Ctrl+C, or a non-empty line whose
    command returns or raises an [Exception]. *)
Definition goes_on (x : stdin_event) : bool :=
  match x with
  | CtrlC => true
  | ReadRaises => false
  | Line line o _ =>
      negb (String.eqb line "") &&
      match o with
      | Returns _ | RaisesException _ => true
      | RaisesSystemExit | RaisesBaseException => false
      end
  end.

(** The number of frames a trace draws (one screen clear per frame), and of
    iterations it starts (one passed stop check per iteration). *)
Definition is_frame_clear (ev : event) : bool :=
  match ev with
  | EvWrite Frame s => String.eqb s SCREEN_CLEAR
  | _ => false
  end.

Definition is_iteration_start (ev : event) : bool :=
  match ev with EvIsSet Stop false => true | _ => false end.

Definition frames (tr : trace) : nat := List.length (filter is_frame_clear tr).
Definition iterations (tr : trace) : nat :=
  List.length (filter is_iteration_start tr).


(** An exception leaves the loop when a command raised a [BaseException]
    that is not [SystemExit], or when [readline] raised anything but
    [KeyboardInterrupt]. *)
Definition escapes (ev : event) : bool :=
  match ev with
  | EvHandle _ RaisesBaseException | EvReadRaises => true
  | _ => false
  end.


(** ** The memory and the commands: [cmd_*] and [handle_command] *)

Open Scope string_scope.

(** The module-level dictionary [memory]: keys and values are the strings
    [cmd_remember] stores. A Python [dict] keeps its keys unique and in
    insertion order, and [cmd_list] shows that order, so it is a list of
    pairs. *)
Definition dict := list (string * string).

(** [memory[key]], [None] when [key not in memory]. *)
Fixpoint dict_get (key : string) (d : dict) : option string :=
  match d with
  | [] => None
  | (k, v) :: d' => if String.eqb k key then Some v else dict_get key d'
  end.

(** [memory[key] = val]: an existing key keeps its place, a new one goes
    last. *)
Fixpoint dict_set (key val : string) (d : dict) : dict :=
  match d with
  | [] => [(key, val)]
  | (k, v) :: d' =>
      if String.eqb k key then (key, val) :: d'
      else (k, v) :: dict_set key val d'
  end.

(** What [memory.pop(key)] leaves. *)
Fixpoint dict_pop (key : string) (d : dict) : dict :=
  match d with
  | [] => []
  | (k, v) :: d' =>
      if String.eqb k key then d' else (k, v) :: dict_pop key d'
  end.

(** The keys of a dictionary are unique. *)
Definition well_formed (d : dict) : Prop := NoDup (map fst d).

(** [s.split(sep, 1)] for a one-character separator: the text before the
    first [sep] and the text after it, [None] when [sep not in s]. *)
Fixpoint split_once (sep : ascii) (s : string) : option (string * string) :=
  match s with
  | EmptyString => None
  | String c s' =>
      if Ascii.eqb c sep then Some (EmptyString, s')
      else match split_once sep s' with
           | Some (a, b) => Some (String c a, b)
           | None => None
           end
  end.

(** [needle in s] *)
Fixpoint contains (needle s : string) : bool :=
  String.prefix needle s ||
  match s with
  | EmptyString => false
  | String _ s' => contains needle s'
  end.

Definition JOKES : list string :=
  [ "Why did the computer show up at work late? It had a hard drive.";
    "Why do programmers prefer dark mode? Because light attracts bugs!";
    "I would tell you a UDP joke, but you might not get it." ].

Definition cmd_help : string :=
  String.concat nl
    [ "Available commands:";
      "  help                      - show this help";
      "  say <text>                - speak text (TTS)";
      "  remember <key> = <value>  - store a value in memory";
      "  recall <key>              - get value from memory";
      "  list                      - list all memory keys";
      "  forget <key>              - remove key from memory";
      "  time                      - show current time";
      "  joke                      - tell a random joke";
      "  blink                     - force a blink";
      "  blink_auto on|off         - enable/disable auto blinking";
      "  clear                     - clear the assistant screen";
      "  exit / quit               - exit the assistant" ].

(** The dictionary in memory and the one [memory.json] holds ([None] when
    the file does not exist). [save_memory] writes a temporary file and
    renames it over [memory.json], so the file holds the last dictionary
    saved with success. The memory is a dictionary of strings: what
    [load_memory] returns when the file is absent or unreadable, what the
    commands build from there, and so what [save_memory] writes and a
    later run loads. A [memory.json] written by hand with
    another JSON value (a list, a number, values that are not strings) is
    outside this type, and so are the [TypeError] and [AttributeError] the
    commands raise on it. *)
Record session := mkSession { memory : dict; disk : option dict }.

(** What one command obtains from outside: whether writing the file fails
    (with the text of the exception), the date and time as
    [strftime("%Y-%m-%d %H:%M:%S")] formats it, the element
    [random.choice] picks, and the two speech engines of [speak]: whether
    [termux-tts-speak] is found and runs, and whether [pyttsx3] imports,
    starts and gets its thread. *)
Record cmd_env := mkCmdEnv {
  save_error : option string;
  now_text : string;
  joke_pick : nat;
  termux_tts : bool;
  pyttsx3 : bool
}.

(** What a command does besides answering: it speaks, or it calls a method
    of the animator. *)
Inductive effect :=
| Speak (text : string)
| Animate (c : call).

Definition answer (res : string) (s : session) (fx : list effect)
  : cmd_outcome * session * list effect :=
  (Returns (Some res), s, fx).

(** [save_memory(memory)]: the exception text when it raises, and the
    session afterwards. *)
Definition save_memory (ce : cmd_env) (s : session) : option string * session :=
  match save_error ce with
  | Some err => (Some err, s)
  | None => (None, {| memory := memory s; disk := Some (memory s) |})
  end.

(** [speak(text)], as the terminal sees it: the first engine that works
    takes the text; with none, the note is printed. *)
Definition speak (ce : cmd_env) (text : string) : list action :=
  if termux_tts ce then []
  else if pyttsx3 ce then []
  else [Note text].

(** The effects of a command as actions of the host thread. *)
Definition actions (ce : cmd_env) (fx : list effect) : list action :=
  flat_map (fun f => match f with
                     | Speak text => speak ce text
                     | Animate c => [Call c]
                     end) fx.

Section Builtins.

(** The builtins of Python strings the commands use, on any text:
    [s.strip()], [s.lower()] and [repr(s)] (the [!r] of the f-strings). *)
Variable strip : string -> string.
Variable lower : string -> string.
Variable repr : string -> string.

Definition cmd_remember (ce : cmd_env) (arg : string) (s : session)
  : cmd_outcome * session * list effect :=
  match split_once "=" arg with
  | None => answer "Use: remember key = value" s []
  | Some (key, val) =>
      let key := strip key in
      let val := strip val in
      let s1 := {| memory := dict_set key val (memory s); disk := disk s |} in
      match save_memory ce s1 with
      | (Some err, s2) => (RaisesException err, s2, [])
      | (None, s2) =>
          answer ("Okay, remembered " ++ key ++ " = " ++ repr val) s2 []
      end
  end.

Definition cmd_recall (arg : string) (s : session)
  : cmd_outcome * session * list effect :=
  let key := strip arg in
  if String.eqb key "" then answer "Use: recall key" s []
  else
    match dict_get key (memory s) with
    | Some v => answer (key ++ " = " ++ repr v) s []
    | None => answer ("I don't have " ++ repr key ++ " in memory.") s []
    end.

Definition cmd_list (s : session) : cmd_outcome * session * list effect :=
  match memory s with
  | [] => answer "Memory is empty." s []
  | items =>
      answer
        (String.concat nl (map (fun kv => fst kv ++ " = " ++ repr (snd kv)) items))
        s []
  end.

Definition cmd_forget (ce : cmd_env) (arg : string) (s : session)
  : cmd_outcome * session * list effect :=
  let key := strip arg in
  if String.eqb key "" then answer "Use: forget key" s []
  else
    match dict_get key (memory s) with
    | Some val =>
        let s1 := {| memory := dict_pop key (memory s); disk := disk s |} in
        match save_memory ce s1 with
        | (Some err, s2) => (RaisesException err, s2, [])
        | (None, s2) =>
            answer ("Forgot " ++ key ++ " (was " ++ repr val ++ ")") s2 []
        end
    | None => answer ("No memory for " ++ repr key) s []
    end.

Definition cmd_time (ce : cmd_env) : string :=
  "Current time: " ++ now_text ce.

Definition cmd_joke (ce : cmd_env) : string :=
  nth (joke_pick ce mod List.length JOKES) JOKES "".

(** [cmd in (a, b, ...)] *)
Definition among (cmd : string) (words : list string) : bool :=
  existsb (String.eqb cmd) words.

(** The command word and the argument of a stripped line:
    [parts = line.split(" ", 1)], [cmd = parts[0].lower()],
    [arg = parts[1] if len(parts) > 1 else ""]. *)
Definition parse (line : string) : string * string :=
  match split_once " " line with
  | Some (first, rest) => (lower first, rest)
  | None => (lower line, "")
  end.

Definition handle_command (ce : cmd_env) (line : string) (s : session)
  : cmd_outcome * session * list effect :=
  let line := strip line in
  if String.eqb line "" then answer "" s []
  else
    let '(cmd, arg) := parse line in
    if among cmd ["help"; "?"] then answer cmd_help s []
    else if String.eqb cmd "say" then
      if String.eqb arg "" then answer "Use: say <text>" s []
      else answer "(spoken)" s [Speak arg]
    else if String.eqb cmd "remember" then cmd_remember ce arg s
    else if String.eqb cmd "recall" then cmd_recall arg s
    else if String.eqb cmd "list" then cmd_list s
    else if String.eqb cmd "forget" then cmd_forget ce arg s
    else if among cmd ["time"; "now"] then answer (cmd_time ce) s []
    else if String.eqb cmd "joke" then
      let res := cmd_joke ce in answer res s [Speak res]
    else if String.eqb cmd "blink" then
      answer "(blinked)" s [Animate TriggerBlink]
    else if String.eqb cmd "blink_auto" then
      let a := lower (strip arg) in
      if among a ["on"; "1"; "true"; "yes"] then
        answer "Auto-blink: ON" s [Animate (SetAuto true)]
      else if among a ["off"; "0"; "false"; "no"] then
        answer "Auto-blink: OFF" s [Animate (SetAuto false)]
      else answer "Use: blink_auto on|off" s []
    else if String.eqb cmd "clear" then (Returns None, s, [])
    else if among cmd ["exit"; "quit"] then (RaisesSystemExit, s, [])
    else if contains "name" (lower line) then
      answer "I'm your Termux assistant. You can teach me things with 'remember'." s []
    else if contains "hello" (lower line) || contains "hi" (lower line) then
      answer "Hello! Type 'help' for commands." s []
    else answer "Sorry, I don't understand that. Type 'help' for commands." s [].

(** The command word of a raw line, as [handle_command] sees it. *)
Definition command_word (line : string) : string := fst (parse (strip line)).

(** What is typed at one prompt: a line, with what its command finds
    outside, or Ctrl+C. *)
Inductive typed :=
| Types (line : string) (ce : cmd_env)
| Interrupts.

(** The script of a session: each typed line with the outcome
    [handle_command] has on it, in the state the lines before left. *)
Fixpoint session_script (inputs : list typed) (s : session)
  : list stdin_event :=
  match inputs with
  | [] => []
  | Interrupts :: rest => CtrlC :: session_script rest s
  | Types line ce :: rest =>
      let '(o, s', fx) := handle_command ce (rstrip_nl line) s in
      Line line o (actions ce fx) :: session_script rest s'
  end.

End Builtins.

(** The calls on the animator among the effects of a command. *)
Fixpoint animator_calls (fx : list effect) : list call :=
  match fx with
  | [] => []
  | Animate c :: fx' => c :: animator_calls fx'
  | Speak _ :: fx' => animator_calls fx'
  end.

(** Whether a command raised an [Exception]. *)
Definition raised (o : cmd_outcome) : bool :=
  match o with RaisesException _ => true | _ => false end.

(** How the file stands to the memory after a command that took the
    session from [s] to [s']: a command that raised left the file as it
    was; one that did not raise and changed the memory wrote it to the
    file; so one that did not raise leaves the file in step with the memory
    if it found it so. *)
Definition file_in_step (s : session) (o : cmd_outcome) (s' : session)
  : Prop :=
  (raised o = true -> disk s' = disk s) /\
  (raised o = false -> memory s' <> memory s ->
   disk s' = Some (memory s')) /\
  (raised o = false -> disk s = Some (memory s) ->
   disk s' = Some (memory s')).

(** The three builtins on plain ASCII text, for the examples: blanks
    stripped at both ends, [A]-[Z] lowered, and the [repr] of a text
    without quotes, backslashes or control characters. *)
Definition is_blank (c : ascii) : bool :=
  let n := nat_of_ascii c in
  (n =? 32)%nat || ((9 <=? n)%nat && (n <=? 13)%nat)
  || ((28 <=? n)%nat && (n <=? 31)%nat).

Fixpoint lstrip_blank (s : string) : string :=
  match s with
  | String c s' => if is_blank c then lstrip_blank s' else s
  | EmptyString => EmptyString
  end.

Fixpoint rstrip_blank (s : string) : string :=
  match s with
  | EmptyString => EmptyString
  | String c s' =>
      let r := rstrip_blank s' in
      if is_blank c && String.eqb r "" then "" else String c r
  end.

Definition ascii_strip (s : string) : string := rstrip_blank (lstrip_blank s).

Definition lower_char (c : ascii) : ascii :=
  let n := nat_of_ascii c in
  if (65 <=? n)%nat && (n <=? 90)%nat then ascii_of_nat (n + 32) else c.

Fixpoint ascii_lower (s : string) : string :=
  match s with
  | EmptyString => EmptyString
  | String c s' => String (lower_char c) (ascii_lower s')
  end.

Definition quote (s : string) : string := "'" ++ s ++ "'".

Definition handle := handle_command ascii_strip ascii_lower quote.

Definition fair_weather : cmd_env :=
  {| save_error := None; now_text := "2024-01-01 12:00:00"; joke_pick := 1;
     termux_tts := true; pyttsx3 := false |}.

(** The same with no speech engine and a disk that cannot be written. *)
Definition foul_weather : cmd_env :=
  {| save_error := Some "disk full"; now_text := "2024-01-01 12:00:00";
     joke_pick := 1; termux_tts := false; pyttsx3 := false |}.

Definition empty_session : session := {| memory := []; disk := None |}.

(** The session after [save_memory] wrote the empty dictionary. *)
Definition empty_session_saved : session :=
  {| memory := []; disk := Some [] |}.

Open Scope list_scope.

(** * Facts *)

(** ** The definitions on concrete inputs *)

Example rstrip_nl_line : rstrip_nl ("help" ++ nl)%string = "help"%string.
Proof. reflexivity. Qed.

Example rstrip_nl_inner :
  rstrip_nl (nl ++ "a" ++ nl ++ nl)%string = (nl ++ "a")%string.
Proof. reflexivity. Qed.

Example assemble_two_lines :
  assemble ["ab"; "c"]%string
  = ("      ab   ab" ++ nl ++ "      c   c")%string.
Proof. reflexivity. Qed.

Example draw_one_is_open : _draw 1.0 = assemble EYE_OPEN.
Proof. reflexivity. Qed.

Example draw_zero_is_closed : _draw 0.0 = assemble EYE_CLOSED.
Proof. reflexivity. Qed.

(** A blink leaves nine assignments. *)
Example blink_writes_values :
  blink_writes = [0.8; 0.5; 0.2; 0.0; 0.0; 0.2; 0.5; 0.8; 1.0]%float.
Proof. reflexivity. Qed.

(** The first iteration of a fresh animator in the quiet environment: the
    clock (0) has reached the deadline (0 + 0), so it blinks and redraws the
    open face. *)
Example first_iteration_blinks :
  writes (events (_run 1) quiet w0) = blink_writes /\
  _state (animator (final (_run 1) quiet w0)) = 1.0%float /\
  result (_run 1) quiet w0 = false.
Proof. repeat split; vm_compute; reflexivity. Qed.

(** With [_stop] set the loop is left at its first check. *)
Example stopped_loop_exits :
  _run 5 quiet {| animator := put_flag Stop true __init__; cursor := 0 |}
  = (true, {| animator := put_flag Stop true __init__; cursor := 3 |},
     [EvTime 0.0; EvUniform 0.5 2.5 0.0; EvIsSet Stop true]).
Proof. reflexivity. Qed.

(** Leaving with [exit]: [handle_command] raises [SystemExit], the loop
    breaks and the shutdown runs. *)
Example exit_command_shuts_down :
  events (main_loop [Line ("exit" ++ nl)%string RaisesSystemExit []] None)
    quiet w0
  = prompt_events ++ [EvReadline ("exit" ++ nl)%string;
                      EvHandle "exit"%string RaisesSystemExit] ++
    shutdown_events.
Proof. reflexivity. Qed.

(** [say hi] with no speech engine: the note is written without the lock,
    the answer under it. *)
Example say_without_engine :
  events (main_loop_while
            [Line ("say hi" ++ nl)%string (Returns (Some "(spoken)"%string))
               [Note "hi"%string]]) quiet w0
  = prompt_events ++
    [EvReadline ("say hi" ++ nl)%string;
     EvHandle "say hi"%string (Returns (Some "(spoken)"%string));
     EvWrite Other ("(no TTS available) -> hi" ++ nl)%string;
     EvAcquire; EvWrite Response ("(spoken)" ++ nl)%string; EvRelease] ++
    prompt_events ++ [EvReadline ""%string; EvWrite Other nl].
Proof. reflexivity. Qed.

(** ** Order of floats *)

Module PyFloatFacts.
Import PyFloat.

Ltac sf_cases :=
  repeat match goal with
  | |- context [Pos.compare_cont ?c ?p ?q] =>
      rewrite (Pos.compare_cont_spec p q c)
  | H : context [Pos.compare_cont ?c ?p ?q] |- _ =>
      rewrite (Pos.compare_cont_spec p q c) in H
  end;
  unfold Pos.switch_Eq in *;
  repeat match goal with
  | H : context [Z.compare ?a ?b] |- _ => destruct (Z.compare_spec a b); subst
  | |- context [Z.compare ?a ?b] => destruct (Z.compare_spec a b); subst
  | H : context [Pos.compare ?a ?b] |- _ => destruct (Pos.compare_spec a b); subst
  | |- context [Pos.compare ?a ?b] => destruct (Pos.compare_spec a b); subst
  end;
  simpl in *; try congruence; try lia.

Lemma SFcompare_antisym (x y : spec_float) (c : comparison) :
  SFcompare x y = Some c -> SFcompare y x = Some (CompOpp c).
Proof.
  destruct x as [sx|sx| |sx mx ex], y as [sy|sy| |sy my ey];
    try destruct sx; try destruct sy; simpl; intros H;
    try discriminate; try (injection H as <-; reflexivity).
  all: injection H as <-; f_equal; sf_cases.
Qed.

Lemma SFcompare_le_lt_trans (a x b : spec_float) (c : comparison) :
  SFcompare a x = Some c -> c <> Gt ->
  SFcompare x b = Some Lt -> SFcompare a b = Some Lt.
Proof.
  destruct a as [sa|sa| |sa ma ea], x as [sx|sx| |sx mx ex],
           b as [sb|sb| |sb mb eb];
    try destruct sa; try destruct sx; try destruct sb; simpl;
    intros H1 Hc H2;
    try discriminate; try reflexivity;
    try (injection H1 as <-; congruence).
  all: injection H1 as H1; injection H2 as H2; subst c; f_equal; sf_cases.
Qed.

(** [x < y] excludes [x >= y]. *)
Lemma lt_not_ge (x y : float) : lt x y = true -> ge x y = false.
Proof.
  unfold lt, ge. rewrite ltb_spec, leb_spec. unfold SFltb, SFleb.
  destruct (SFcompare (Prim2SF x) (Prim2SF y)) as [[| |]|] eqn:E;
    try discriminate.
  intros _. now rewrite (SFcompare_antisym _ _ _ E).
Qed.

(** [a <= x] and [x < b] give [a < b]. *)
Lemma ge_lt_trans (a x b : float) :
  ge x a = true -> lt x b = true -> lt a b = true.
Proof.
  unfold lt, ge. rewrite !ltb_spec, leb_spec. unfold SFltb, SFleb.
  destruct (SFcompare (Prim2SF a) (Prim2SF x)) as [[| |]|] eqn:E1;
    try discriminate;
    destruct (SFcompare (Prim2SF x) (Prim2SF b)) as [[| |]|] eqn:E2;
    try discriminate; intros _ _.
  - now rewrite (SFcompare_le_lt_trans _ _ _ _ E1 ltac:(discriminate) E2).
  - now rewrite (SFcompare_le_lt_trans _ _ _ _ E1 ltac:(discriminate) E2).
Qed.

End PyFloatFacts.

(** ** Running the monad *)

Lemma result_bind {A B} (m : M A) (k : A -> M B) e w :
  result (bind m k) e w = result (k (result m e w)) e (final m e w).
Proof.
  unfold result, final, bind. destruct (m e w) as [[a w1] t1]. simpl.
  destruct (k a e w1) as [[b w2] t2]. reflexivity.
Qed.

Lemma final_bind {A B} (m : M A) (k : A -> M B) e w :
  final (bind m k) e w = final (k (result m e w)) e (final m e w).
Proof.
  unfold result, final, bind. destruct (m e w) as [[a w1] t1]. simpl.
  destruct (k a e w1) as [[b w2] t2]. reflexivity.
Qed.

Lemma events_bind {A B} (m : M A) (k : A -> M B) e w :
  events (bind m k) e w =
  (events m e w ++ events (k (result m e w)) e (final m e w))%list.
Proof.
  unfold events, result, final, bind. destruct (m e w) as [[a w1] t1]. simpl.
  destruct (k a e w1) as [[b w2] t2]. reflexivity.
Qed.

Lemma run_eta {A} (m : M A) e w :
  m e w = (result m e w, final m e w, events m e w).
Proof. unfold result, final, events. now destruct (m e w) as [[a w1] t1]. Qed.

(** ** The calls of other threads *)

Lemma apply_call_put_state c v a :
  apply_call c (put_state v a) = put_state v (apply_call c a).
Proof. destruct c as [|[]|]; reflexivity. Qed.

Lemma apply_calls_put_state cs : forall v a,
  apply_calls cs (put_state v a) = put_state v (apply_calls cs a).
Proof.
  unfold apply_calls. induction cs as [|c cs IH]; intros v a; simpl.
  - reflexivity.
  - rewrite apply_call_put_state. apply IH.
Qed.

(** No public method assigns [_state]. *)
Lemma state_apply_calls cs : forall a, _state (apply_calls cs a) = _state a.
Proof.
  unfold apply_calls. induction cs as [|c cs IH]; intros a; simpl.
  - reflexivity.
  - rewrite IH. destruct c as [|[]|]; reflexivity.
Qed.


Lemma blink_apply_calls cs : forall a,
  _blink a = true -> _blink (apply_calls cs a) = true.
Proof.
  unfold apply_calls. induction cs as [|c cs IH]; intros a H; simpl.
  - exact H.
  - apply IH. destruct c as [|[]|]; simpl; auto.
Qed.

(** Without a call of [set_auto(True)], a disabled gate stays disabled. *)
Lemma auto_apply_calls cs : forall a,
  existsb enables cs = false -> _auto a = false ->
  _auto (apply_calls cs a) = false.
Proof.
  unfold apply_calls. induction cs as [|c cs IH]; intros a Hc H; simpl.
  - exact H.
  - simpl in Hc. apply orb_false_elim in Hc as [Hc1 Hc2].
    apply IH; [exact Hc2|]. destruct c as [|[]|]; simpl; auto; discriminate.
Qed.

(** ** The components of the animation loop, run *)

Lemma do_blink_spec e w :
  _do_blink e w =
  (tt,
   {| animator :=
        put_state 1.0 (apply_calls (calls (e (cursor w))) (animator w));
      cursor := S (cursor w) |},
   blink_events (value (e (cursor w)))).
Proof. cbn. rewrite !apply_calls_put_state. reflexivity. Qed.

Lemma redraw_spec e w :
  redraw e w = (tt, w, redraw_events (_state (animator w))).
Proof. destruct w as [a c]. reflexivity. Qed.

Lemma time_spec e w :
  time e w =
  (value (e (cursor w)),
   {| animator := apply_calls (calls (e (cursor w))) (animator w);
      cursor := S (cursor w) |},
   [EvTime (value (e (cursor w)))]).
Proof. reflexivity. Qed.

Lemma is_set_spec f e w :
  is_set f e w =
  let a := apply_calls (calls (e (cursor w))) (animator w) in
  (get_flag f a, {| animator := a; cursor := S (cursor w) |},
   [EvIsSet f (get_flag f a)]).
Proof. reflexivity. Qed.

Lemma forced_blink_spec e w :
  let c := cursor w in
  let a := apply_calls (calls (e c)) (animator w) in
  forced_blink e w =
  if _blink a then
    (tt,
     {| animator :=
          put_state 1.0
            (apply_calls (calls (e (S (S c))))
               (put_flag Blink false (apply_calls (calls (e (S c))) a)));
        cursor := S (S (S c)) |},
     EvIsSet Blink true :: EvClear Blink :: blink_events (value (e (S (S c)))))
  else (tt, {| animator := a; cursor := S c |}, [EvIsSet Blink false]).
Proof.
  intros c a. unfold forced_blink, bind. rewrite is_set_spec. cbv zeta.
  fold c a. simpl get_flag. destruct (_blink a) eqn:Hb.
  - unfold clear, bind. cbn -[_do_blink apply_calls]. rewrite do_blink_spec.
    reflexivity.
  - reflexivity.
Qed.

Lemma auto_blink_spec now last e w :
  let c := cursor w in
  let a := apply_calls (calls (e c)) (animator w) in
  auto_blink now last e w =
  if _auto a && PyFloat.ge now last then
    ((now + value (e (S (S c))))%float,
     {| animator :=
          apply_calls (calls (e (S (S c))))
            (put_state 1.0 (apply_calls (calls (e (S c))) a));
        cursor := S (S (S c)) |},
     (EvIsSet Auto true :: blink_events (value (e (S c))) ++
      [EvUniform 2.0 5.5 (value (e (S (S c))))])%list)
  else (last, {| animator := a; cursor := S c |}, [EvIsSet Auto (_auto a)]).
Proof.
  intros c a. unfold auto_blink, bind. rewrite is_set_spec. cbv zeta.
  fold c a. simpl get_flag.
  destruct (_auto a) eqn:Ha; [destruct (PyFloat.ge now last) eqn:Hg|];
    cbn [andb]; try reflexivity.
  rewrite do_blink_spec. cbn -[blink_events apply_calls].
  reflexivity.
Qed.

Lemma run_iteration_spec last e w :
  let now := value (e (cursor w)) in
  let w1 := final time e w in
  let w2 := final (auto_blink now last) e w1 in
  let w3 := final forced_blink e w2 in
  _run_iteration last e w =
  (result (auto_blink now last) e w1, w3,
   ([EvTime now] ++ events (auto_blink now last) e w1 ++
    events forced_blink e w2 ++
    redraw_events (_state (animator w3)) ++ [EvSleep EYES_REFRESH])%list).
Proof.
  intros now w1 w2 w3. rewrite (run_eta (_run_iteration last)).
  unfold _run_iteration.
  rewrite !result_bind, !final_bind, !events_bind.
  change (result time e w) with now. fold w1. fold w2. fold w3.
  unfold result at 1, final at 1, events at 1 4 5.
  rewrite redraw_spec. reflexivity.
Qed.

(** ** Traces: assignments and the lock, piecewise *)

Lemma writes_app t1 t2 : writes (t1 ++ t2) = (writes t1 ++ writes t2)%list.
Proof.
  induction t1 as [|ev t1 IH]; simpl; [reflexivity|].
  destruct ev; simpl; rewrite ?IH; reflexivity.
Qed.

Lemma writes_blink_events r : writes (blink_events r) = blink_writes.
Proof. reflexivity. Qed.

Lemma writes_redraw_events v : writes (redraw_events v) = [].
Proof. reflexivity. Qed.

Lemma state_after_app v0 t1 t2 :
  state_after v0 (t1 ++ t2) = state_after (state_after v0 t1) t2.
Proof.
  unfold state_after. rewrite writes_app.
  destruct (writes t2) as [|v l] eqn:E using rev_ind.
  - now rewrite app_nil_r.
  - now rewrite app_assoc, !last_last.
Qed.

Lemma lock_scan_app t1 : forall h t2,
  lock_scan h (t1 ++ t2) =
  match lock_scan h t1 with
  | Some h' => lock_scan h' t2
  | None => None
  end.
Proof.
  induction t1 as [|ev t1 IH]; intros h t2; simpl; [reflexivity|].
  destruct ev as [| | | | | | | | |k s| | | | | | | | |]; try destruct k;
    destruct h; simpl; try reflexivity; apply IH.
Qed.

Lemma lock_scan_blink_events r : lock_scan false (blink_events r) = Some false.
Proof. reflexivity. Qed.

Lemma lock_scan_redraw_events v : lock_scan false (redraw_events v) = Some false.
Proof. reflexivity. Qed.

Lemma bind_closed {A B} (P : trace -> Prop) (m : M A) (k : A -> M B) :
  closed_under_app P ->
  (forall e w, P (events m e w)) ->
  (forall a e w, P (events (k a) e w)) ->
  forall e w, P (events (bind m k) e w).
Proof.
  intros [_ Happ] Hm Hk e w. rewrite events_bind. apply Happ; auto.
Qed.

Lemma writes_in_unit_closed : closed_under_app writes_in_unit.
Proof.
  split; [constructor|]. intros t1 t2 H1 H2. unfold writes_in_unit.
  rewrite writes_app. apply Forall_app. now split.
Qed.

Lemma keeps_lock_closed : closed_under_app keeps_lock.
Proof.
  split; [reflexivity|]. unfold keeps_lock. intros t1 t2 H1 H2.
  now rewrite lock_scan_app, H1.
Qed.

Section ThroughTheLoop.

Variable P : trace -> Prop.
Hypothesis P_closed : closed_under_app P.
Hypothesis P_neutral : forall ev, neutral ev = true -> P [ev].
Hypothesis P_blink : forall r, P (blink_events r).
Hypothesis P_redraw : forall v, P (redraw_events v).

Lemma P_nil : P [].
Proof. apply P_closed. Qed.

Lemma P_app t1 t2 : P t1 -> P t2 -> P (t1 ++ t2).
Proof. apply P_closed. Qed.

Lemma P_cons ev tr : neutral ev = true -> P tr -> P (ev :: tr).
Proof.
  intros Hn Htr. change (P ([ev] ++ tr)). apply P_app; auto.
Qed.

Lemma P_auto_blink now last e w : P (events (auto_blink now last) e w).
Proof.
  unfold events. rewrite auto_blink_spec. cbv zeta.
  destruct (_ && _); cbn [snd].
  - apply P_cons; [reflexivity|]. apply P_app; auto.
  - apply P_neutral. reflexivity.
Qed.

Lemma P_forced_blink e w : P (events forced_blink e w).
Proof.
  unfold events. rewrite forced_blink_spec. cbv zeta.
  destruct (_blink _); cbn [snd].
  - do 2 (apply P_cons; [reflexivity|]). apply P_blink.
  - apply P_neutral. reflexivity.
Qed.

Lemma P_run_iteration last e w : P (events (_run_iteration last) e w).
Proof.
  unfold events at 1. rewrite run_iteration_spec. cbv zeta. cbn [snd app].
  apply P_cons; [reflexivity|].
  apply P_app; [apply P_auto_blink|].
  apply P_app; [apply P_forced_blink|].
  apply P_app; [apply P_redraw|]. apply P_neutral. reflexivity.
Qed.

Lemma P_run_loop fuel : forall last e w, P (events (_run_loop fuel last) e w).
Proof.
  induction fuel as [|fuel IH]; intros last e w.
  - apply P_nil.
  - cbn [_run_loop]. rewrite events_bind.
    apply P_app; [apply P_neutral; reflexivity|].
    destruct (result (is_set Stop) e w).
    + apply P_nil.
    + rewrite events_bind. apply P_app; [apply P_run_iteration|apply IH].
Qed.

Lemma P_run fuel e w : P (events (_run fuel) e w).
Proof.
  unfold _run. rewrite !events_bind.
  apply P_app; [apply P_neutral; reflexivity|].
  apply P_app; [apply P_neutral; reflexivity|].
  apply P_run_loop.
Qed.

End ThroughTheLoop.

Lemma run_writes_in_unit fuel e w : writes_in_unit (events (_run fuel) e w).
Proof.
  apply P_run.
  - apply writes_in_unit_closed.
  - intros ev Hn. destruct ev; try discriminate; constructor.
  - intros r. unfold writes_in_unit. rewrite writes_blink_events.
    repeat constructor.
  - intros v. constructor.
Qed.

Lemma run_keeps_lock fuel e w : keeps_lock (events (_run fuel) e w).
Proof.
  apply P_run.
  - apply keeps_lock_closed.
  - intros ev Hn. destruct ev; try discriminate; reflexivity.
  - apply lock_scan_blink_events.
  - apply lock_scan_redraw_events.
Qed.

Lemma tracks_bind {A B} (m : M A) (k : A -> M B) :
  tracks m -> (forall a, tracks (k a)) -> tracks (bind m k).
Proof.
  intros Hm Hk e w. rewrite final_bind, events_bind, state_after_app.
  rewrite Hk, Hm. reflexivity.
Qed.

Lemma tracks_time : tracks time.
Proof. intros e w. cbn. apply state_apply_calls. Qed.

Lemma tracks_uniform lo hi : tracks (uniform lo hi).
Proof. intros e w. cbn. apply state_apply_calls. Qed.

Lemma tracks_is_set f : tracks (is_set f).
Proof. intros e w. cbn. apply state_apply_calls. Qed.

Lemma tracks_auto_blink now last : tracks (auto_blink now last).
Proof.
  intros e w. unfold final, events. rewrite auto_blink_spec. cbv zeta.
  destruct (_ && _); cbn [fst snd animator].
  - rewrite state_apply_calls. unfold state_after.
    cbn [writes]. rewrite writes_app, writes_blink_events. reflexivity.
  - apply state_apply_calls.
Qed.

Lemma tracks_forced_blink : tracks forced_blink.
Proof.
  intros e w. unfold final, events. rewrite forced_blink_spec. cbv zeta.
  destruct (_blink _); cbn [fst snd animator].
  - reflexivity.
  - apply state_apply_calls.
Qed.

Lemma tracks_run_iteration last : tracks (_run_iteration last).
Proof.
  intros e w. unfold final, events. rewrite run_iteration_spec. cbv zeta.
  cbn [fst snd]. rewrite !state_after_app.
  rewrite tracks_forced_blink, tracks_auto_blink, tracks_time.
  reflexivity.
Qed.

Lemma tracks_run_loop fuel : forall last, tracks (_run_loop fuel last).
Proof.
  induction fuel as [|fuel IH]; intros last.
  - intros e w. reflexivity.
  - cbn [_run_loop]. apply tracks_bind; [apply tracks_is_set|].
    intros [|]; [intros e w; reflexivity|].
    apply tracks_bind; [apply tracks_run_iteration|]. intros a. apply IH.
Qed.

Lemma tracks_run fuel : tracks (_run fuel).
Proof.
  unfold _run. apply tracks_bind; [apply tracks_time|]. intros t.
  apply tracks_bind; [apply tracks_uniform|]. intros r.
  apply tracks_run_loop.
Qed.

(** A state gone through is the initial one or one of the assignments. *)
Lemma state_after_prefix v0 pre post :
  state_after v0 pre = v0 \/ In (state_after v0 pre) (writes (pre ++ post)).
Proof.
  unfold state_after. rewrite writes_app.
  destruct (writes pre) as [|v l] using rev_ind.
  - now left.
  - right. rewrite last_last. apply in_or_app. left.
    apply in_or_app. right. now left.
Qed.

(** * The claims *)

(** ** The frame renderer *)

(** The three faces differ, so the tier that [_draw] selects shows. *)
Lemma faces_differ :
  assemble EYE_OPEN <> assemble EYE_HALF /\
  assemble EYE_HALF <> assemble EYE_CLOSED /\
  assemble EYE_OPEN <> assemble EYE_CLOSED.
Proof. repeat split; intros H; vm_compute in H; discriminate. Qed.

(** C1. For every float [level], [_draw] renders the open art when
    [level >= 0.66], the half-open art when [0.33 <= level < 0.66] and the
    closed art when [level < 0.33]; the boundary values [0.66] and [0.33]
    themselves select the more open art. *)
Theorem draw_selects_tier (level : float) :
  (PyFloat.ge level 0.66 = true -> _draw level = assemble EYE_OPEN) /\
  (PyFloat.ge level 0.33 = true -> PyFloat.lt level 0.66 = true ->
   _draw level = assemble EYE_HALF) /\
  (PyFloat.lt level 0.33 = true -> _draw level = assemble EYE_CLOSED) /\
  _draw 0.66 = assemble EYE_OPEN /\
  _draw 0.33 = assemble EYE_HALF.
Proof.
  split; [|split; [|split; [|split]]].
  - intros H. unfold _draw. now rewrite H.
  - intros Hge Hlt. unfold _draw.
    rewrite (PyFloatFacts.lt_not_ge _ _ Hlt), Hge. reflexivity.
  - intros Hlt. unfold _draw.
    rewrite (PyFloatFacts.lt_not_ge _ _ Hlt).
    destruct (PyFloat.ge level 0.66) eqn:Hge; [|reflexivity].
    pose proof (PyFloatFacts.ge_lt_trans _ _ _ Hge Hlt) as Habs.
    vm_compute in Habs. discriminate.
  - reflexivity.
  - reflexivity.
Qed.

(** The renderer at one level of each tier. *)
Lemma draw_selects_tier_witness :
  _draw 0.9 = assemble EYE_OPEN /\
  _draw 0.5 = assemble EYE_HALF /\
  _draw 0.1 = assemble EYE_CLOSED.
Proof.
  split; [|split].
  - exact (proj1 (draw_selects_tier 0.9) eq_refl).
  - exact (proj1 (proj2 (draw_selects_tier 0.5)) eq_refl eq_refl).
  - exact (proj1 (proj2 (proj2 (draw_selects_tier 0.1))) eq_refl).
Defined.

(** A level that is not a number compares false with both thresholds and
    falls through to the last branch. *)
Lemma draw_nan : _draw nan = assemble EYE_CLOSED.
Proof. reflexivity. Qed.

(** ** The blink sequencer *)

(** C10. Whatever the value of [_state] when it starts, and whatever the
    environment does meanwhile, [_do_blink] ends with [_state] exactly
    [1.0]: its last assignment is unconditional. *)
Theorem do_blink_ends_open (e : env) (w : world) :
  _state (animator (final _do_blink e w)) = 1.0%float /\
  exists tr, events _do_blink e w = tr ++ [EvAcquire; EvSetState 1.0; EvRelease].
Proof.
  unfold final, events. rewrite do_blink_spec. split; [reflexivity|].
  eexists. unfold blink_events. rewrite !app_assoc. reflexivity.
Qed.

(** C2. A blink that starts with [_state = 1.0] ends with [_state = 1.0];
    its assignments are the closing steps, then the same steps in reverse,
    then the final [1.0]; and one of them, neither the first nor the last,
    is a closed value (below [0.33]). *)
Theorem blink_round_trip (e : env) (w : world) :
  _state (animator w) = 1.0%float ->
  _state (animator (final _do_blink e w)) = 1.0%float /\
  writes (events _do_blink e w) = steps ++ rev steps ++ [1.0%float] /\
  exists before v after,
    writes (events _do_blink e w) = before ++ v :: after /\
    before <> [] /\ after <> [] /\ PyFloat.lt v 0.33 = true.
Proof.
  intros _. unfold final, events. rewrite do_blink_spec. cbn [fst snd animator].
  rewrite writes_blink_events. split; [reflexivity|]. split; [reflexivity|].
  exists [0.8; 0.5; 0.2]%float, 0.0%float, [0.0; 0.2; 0.5; 0.8; 1.0]%float.
  repeat split; discriminate.
Qed.

(** A blink of the freshly built animator in the quiet environment. *)
Lemma blink_round_trip_witness :
  _state (animator (final _do_blink quiet w0)) = 1.0%float /\
  writes (events _do_blink quiet w0) = steps ++ rev steps ++ [1.0%float].
Proof.
  pose proof (blink_round_trip quiet w0 eq_refl) as [H1 [H2 _]].
  split; [exact H1|exact H2].
Defined.

(** ** The range of [_state] *)

(** C7. [_state] never leaves [[0.0, 1.0]]: every assignment of a run of
    the animation loop stores a value of the interval, so from a state in
    the interval every state the run goes through is in it; the replay of
    the assignments ends in the state the run ends in, no public method
    assigns [_state], and the constructor stores [1.0]. *)
Theorem state_stays_in_unit_interval
  (fuel : nat) (e : env) (w : world) (pre post : trace) :
  PyFloat.in_unit (_state (animator w)) = true ->
  events (_run fuel) e w = pre ++ post ->
  Forall (fun v => PyFloat.in_unit v = true) (writes (events (_run fuel) e w)) /\
  PyFloat.in_unit (state_after (_state (animator w)) pre) = true /\
  _state (animator (final (_run fuel) e w)) =
    state_after (_state (animator w)) (events (_run fuel) e w) /\
  (forall c a, _state (apply_call c a) = _state a) /\
  _state __init__ = 1.0%float.
Proof.
  intros Hw Hsplit.
  pose proof (run_writes_in_unit fuel e w) as Hall.
  split; [exact Hall|]. split; [|split; [|split; [|reflexivity]]].
  - destruct (state_after_prefix (_state (animator w)) pre post) as [-> | Hin].
    + exact Hw.
    + rewrite <- Hsplit in Hin. unfold writes_in_unit in Hall.
      rewrite Forall_forall in Hall. now apply Hall.
  - apply tracks_run.
  - intros c a. apply (state_apply_calls [c]).
Qed.

(** The value [__init__] stores is in the interval. *)
Lemma init_state_in_unit : PyFloat.in_unit (_state __init__) = true.
Proof. reflexivity. Qed.

(** The freshly built animator, observed for two iterations and cut in the
    middle of the first blink. *)
Lemma state_stays_in_unit_interval_witness :
  PyFloat.in_unit
    (state_after (_state __init__) (firstn 12 (events (_run 2) quiet w0))) = true.
Proof.
  apply (state_stays_in_unit_interval 2 quiet w0
           (firstn 12 (events (_run 2) quiet w0))
           (skipn 12 (events (_run 2) quiet w0))).
  - reflexivity.
  - symmetry. apply firstn_skipn.
Defined.

(** ** The two blink tests of an iteration *)

(** C3, the counterexample. [trigger_blink()] was called, auto-blink is
    enabled and the clock has reached the deadline: the iteration runs the
    auto-blink, then finds the flag set, clears it and runs a second blink.
    So [forced_is_else_branch], the specification's reading, fails. *)
Lemma two_blinks_in_one_iteration :
  (result (is_set Auto) quiet (final time quiet w_triggered)
     && PyFloat.ge (result time quiet w_triggered) 0.0 = true /\
   _blink (animator w_triggered) = true /\
   writes (events (_run_iteration 0.0) quiet w_triggered)
     = blink_writes ++ blink_writes /\
   In (EvClear Blink) (events (_run_iteration 0.0) quiet w_triggered) /\
   _blink (animator (final (_run_iteration 0.0) quiet w_triggered)) = false) /\
  ~ forced_is_else_branch.
Proof.
  assert (Hw : writes (events (_run_iteration 0.0) quiet w_triggered)
               = blink_writes ++ blink_writes) by (vm_compute; reflexivity).
  split.
  - split; [vm_compute; reflexivity|].
    split; [reflexivity|].
    split; [exact Hw|].
    split; [|vm_compute; reflexivity].
    vm_compute. repeat (first [left; reflexivity | right]).
  - intros H. destruct (H quiet w_triggered 0.0%float) as [H1 _].
    + vm_compute; reflexivity.
    + rewrite Hw in H1. vm_compute in H1. discriminate.
Qed.

Lemma auto_blink_events now last e w :
  let auto := result (is_set Auto) e w && PyFloat.ge now last in
  exists r1 r2,
    events (auto_blink now last) e w =
    EvIsSet Auto (result (is_set Auto) e w) ::
    (if auto then blink_events r1 ++ [EvUniform 2.0 5.5 r2] else []).
Proof.
  unfold events, result. rewrite auto_blink_spec, is_set_spec. cbv zeta.
  cbn [fst snd get_flag].
  exists (value (e (S (cursor w)))), (value (e (S (S (cursor w))))).
  destruct (_auto _) eqn:Ha; [destruct (PyFloat.ge now last)|];
    reflexivity.
Qed.

Lemma forced_blink_events e w :
  let forced := result (is_set Blink) e w in
  exists r3,
    events forced_blink e w =
    EvIsSet Blink forced ::
    (if forced then EvClear Blink :: blink_events r3 else []).
Proof.
  unfold events, result. rewrite forced_blink_spec, is_set_spec. cbv zeta.
  cbn [fst snd get_flag].
  exists (value (e (S (S (cursor w))))).
  destruct (_blink _) eqn:Hb; reflexivity.
Qed.

(** The events of an iteration, from what its two tests find. *)
Lemma run_iteration_events (e : env) (w : world) (last : float) :
  let now := result time e w in
  let w1 := final time e w in
  let auto := result (is_set Auto) e w1 && PyFloat.ge now last in
  let w2 := final (auto_blink now last) e w1 in
  let forced := result (is_set Blink) e w2 in
  exists r1 r2 r3 v,
    events (_run_iteration last) e w =
      [EvTime now; EvIsSet Auto (result (is_set Auto) e w1)] ++
      (if auto then blink_events r1 ++ [EvUniform 2.0 5.5 r2] else []) ++
      [EvIsSet Blink forced] ++
      (if forced then EvClear Blink :: blink_events r3 else []) ++
      redraw_events v ++ [EvSleep EYES_REFRESH].
Proof.
  intros now w1 auto w2 forced.
  destruct (auto_blink_events now last e w1) as (r1 & r2 & Ha).
  destruct (forced_blink_events e w2) as (r3 & Hf).
  cbv zeta in Ha, Hf. fold auto in Ha. fold forced in Hf.
  exists r1, r2, r3, (_state (animator (final forced_blink e w2))).
  unfold events at 1. rewrite run_iteration_spec. cbv zeta. cbn [snd].
  change (value (e (cursor w))) with now. fold w1. fold w2.
  rewrite Ha, Hf. reflexivity.
Qed.

Lemma run_iteration_writes (e : env) (w : world) (last : float) :
  let now := result time e w in
  let w1 := final time e w in
  let auto := result (is_set Auto) e w1 && PyFloat.ge now last in
  let w2 := final (auto_blink now last) e w1 in
  let forced := result (is_set Blink) e w2 in
  writes (events (_run_iteration last) e w) =
    (if auto then blink_writes else []) ++
    (if forced then blink_writes else []) /\
  clears (events (_run_iteration last) e w) = (if forced then 1 else 0).
Proof.
  intros now w1 auto w2 forced.
  destruct (run_iteration_events e w last) as (r1 & r2 & r3 & v & Hev).
  cbv zeta in Hev. fold now w1 auto w2 forced in Hev. rewrite Hev.
  clear. clearbody auto forced.
  split; destruct auto; destruct forced; reflexivity.
Qed.

(** C3, as the code has it. The forced-blink test is a second [if] that
    follows the auto-blink statement on every iteration, whether or not the
    auto-blink fired: the flag is tested once, and when it is set it is
    cleared and one blink runs. An iteration therefore runs the auto-blink
    (if due) and then the forced blink (if requested): two blinks when both
    conditions hold, and the flag is consumed whenever it was found set. *)
Theorem forced_blink_test_is_independent (e : env) (w : world) (last : float) :
  let now := result time e w in
  let w1 := final time e w in
  let auto := result (is_set Auto) e w1 && PyFloat.ge now last in
  let w2 := final (auto_blink now last) e w1 in
  let forced := result (is_set Blink) e w2 in
  (exists r1 r2 r3 v,
     events (_run_iteration last) e w =
       [EvTime now; EvIsSet Auto (result (is_set Auto) e w1)] ++
       (if auto then blink_events r1 ++ [EvUniform 2.0 5.5 r2] else []) ++
       [EvIsSet Blink forced] ++
       (if forced then EvClear Blink :: blink_events r3 else []) ++
       redraw_events v ++ [EvSleep EYES_REFRESH]) /\
  writes (events (_run_iteration last) e w) =
    (if auto then blink_writes else []) ++
    (if forced then blink_writes else []) /\
  clears (events (_run_iteration last) e w) = (if forced then 1 else 0).
Proof.
  intros now w1 auto w2 forced. split.
  - apply run_iteration_events.
  - apply run_iteration_writes.
Qed.

(** ** The forced-blink flag *)

Lemma trigger_blink_idempotent self :
  trigger_blink (trigger_blink self) = trigger_blink self.
Proof. reflexivity. Qed.

Lemma iter_trigger_blink n self :
  1 <= n -> Nat.iter n trigger_blink self = trigger_blink self.
Proof.
  intros Hn. induction n as [|[|n] IH]; [lia|reflexivity|].
  change (Nat.iter (S (S n)) trigger_blink self)
    with (trigger_blink (Nat.iter (S n) trigger_blink self)).
  rewrite IH by lia. apply trigger_blink_idempotent.
Qed.

(** Without a call of [trigger_blink], other threads leave [_blink] as it
    is. *)
Lemma blink_apply_calls_quiet cs : forall a,
  existsb triggers cs = false -> _blink (apply_calls cs a) = _blink a.
Proof.
  unfold apply_calls. induction cs as [|c cs IH]; intros a Hc; simpl.
  - reflexivity.
  - simpl in Hc. apply orb_false_elim in Hc as [Hc1 Hc2].
    rewrite IH by exact Hc2. destruct c as [|[]|]; simpl; auto; discriminate.
Qed.

(** C4. After [trigger_blink()] was called [n >= 1] times, and with no
    further call of it, the animator is in the state one call leaves; the
    next forced-blink test finds the flag, clears it once and runs one
    blink; the flag is then clear, and the test after that runs nothing. *)
Theorem trigger_blink_coalesces (n : nat) (e : env) (w : world) :
  1 <= n ->
  never_triggers e ->
  let self := Nat.iter n trigger_blink (animator w) in
  let w' := {| animator := self; cursor := cursor w |} in
  self = trigger_blink (animator w) /\
  (exists r,
     events forced_blink e w' =
     EvIsSet Blink true :: EvClear Blink :: blink_events r) /\
  writes (events forced_blink e w') = blink_writes /\
  clears (events forced_blink e w') = 1 /\
  _blink (animator (final forced_blink e w')) = false /\
  events forced_blink e (final forced_blink e w') = [EvIsSet Blink false].
Proof.
  intros Hn He self w'.
  assert (Hself : self = trigger_blink (animator w))
    by (apply iter_trigger_blink; exact Hn).
  split; [exact Hself|].
  assert (Hset : _blink (apply_calls (calls (e (cursor w'))) (animator w'))
                 = true).
  { apply blink_apply_calls. cbn [animator w']. rewrite Hself. reflexivity. }
  assert (Hrun := forced_blink_spec e w'). cbv zeta in Hrun.
  rewrite Hset in Hrun.
  unfold events, final. rewrite Hrun. cbn [fst snd].
  split; [eexists; reflexivity|]. split; [reflexivity|].
  split; [reflexivity|].
  assert (Hclear : forall cs1 cs2 a,
             existsb triggers cs2 = false ->
             _blink (put_state 1.0
                       (apply_calls cs2 (put_flag Blink false
                          (apply_calls cs1 a)))) = false).
  { intros cs1 cs2 a H2. cbn [put_state _blink].
    rewrite blink_apply_calls_quiet by exact H2. reflexivity. }
  split.
  - apply Hclear, He.
  - rewrite forced_blink_spec. cbv zeta. cbn [animator cursor].
    rewrite blink_apply_calls_quiet by apply He.
    rewrite Hclear by apply He. reflexivity.
Qed.

(** Three calls, then two tests, with nobody else around. *)
Lemma trigger_blink_coalesces_witness :
  Nat.iter 3 trigger_blink __init__ = trigger_blink __init__ /\
  writes (events forced_blink quiet
            {| animator := Nat.iter 3 trigger_blink __init__; cursor := 0 |})
  = blink_writes.
Proof.
  assert (H1 : 1 <= 3) by lia.
  assert (H2 : never_triggers quiet) by (intros i; reflexivity).
  destruct (trigger_blink_coalesces 3 quiet w0 H1 H2) as (Ha & _ & Hb & _).
  split; [exact Ha|exact Hb].
Defined.

(** ** The auto-blink deadline *)

(** When the auto-blink does not fire, [auto_blink] hands back the deadline
    it was given, and assigns nothing. *)
Lemma auto_blink_idle now last e w :
  result (is_set Auto) e w && PyFloat.ge now last = false ->
  auto_blink now last e w =
  (last, final (is_set Auto) e w,
   [EvIsSet Auto (result (is_set Auto) e w)]).
Proof.
  unfold result, final. rewrite auto_blink_spec, is_set_spec. cbv zeta.
  cbn [fst snd get_flag]. intros ->. reflexivity.
Qed.

(** C5. The deadline an iteration leaves is the one its auto-blink
    statement leaves, whatever the forced-blink test does afterwards: it is
    [now + r] for a fresh draw when the auto-blink fired and the old
    deadline otherwise. In particular an iteration that services a forced
    blink without an auto-blink runs that blink and leaves the deadline as
    it was. *)
Theorem forced_blink_keeps_deadline (e : env) (w : world) (last : float) :
  let now := result time e w in
  let w1 := final time e w in
  let auto := result (is_set Auto) e w1 && PyFloat.ge now last in
  let w2 := final (auto_blink now last) e w1 in
  let forced := result (is_set Blink) e w2 in
  result (_run_iteration last) e w = result (auto_blink now last) e w1 /\
  (exists r,
     result (_run_iteration last) e w =
     if auto then (now + r)%float else last) /\
  (auto = false -> forced = true ->
   result (_run_iteration last) e w = last /\
   writes (events (_run_iteration last) e w) = blink_writes).
Proof.
  intros now w1 auto w2 forced.
  assert (Hres : result (_run_iteration last) e w
                 = result (auto_blink now last) e w1).
  { unfold result at 1. rewrite run_iteration_spec. reflexivity. }
  split; [exact Hres|]. split.
  - rewrite Hres. unfold result at 1. rewrite auto_blink_spec. cbv zeta.
    exists (value (e (S (S (cursor w1))))).
    unfold auto, result. rewrite is_set_spec. cbv zeta. cbn [fst get_flag].
    destruct (_ && _); reflexivity.
  - intros Hauto Hforced. split.
    + rewrite Hres. unfold result at 1.
      rewrite auto_blink_idle by exact Hauto. reflexivity.
    + destruct (run_iteration_writes e w last) as (Hw & _).
      cbv zeta in Hw. fold now w1 auto w2 forced in Hw.
      rewrite Hw, Hauto, Hforced. reflexivity.
Qed.

(** Auto-blink disabled, a blink requested, the deadline long past: the
    forced blink runs and the deadline stays. *)
Lemma forced_blink_keeps_deadline_witness :
  result (_run_iteration 0.0) quiet w_disabled_triggered = 0.0%float /\
  writes (events (_run_iteration 0.0) quiet w_disabled_triggered) = blink_writes.
Proof.
  apply (forced_blink_keeps_deadline quiet w_disabled_triggered 0.0%float);
    vm_compute; reflexivity.
Defined.

(** ** The auto-blink gate *)

Lemma clears_app t1 t2 : clears (t1 ++ t2) = clears t1 + clears t2.
Proof. unfold clears. now rewrite filter_app, length_app. Qed.

Lemma only_forced_blinks_app t1 t2 :
  only_forced_blinks t1 -> only_forced_blinks t2 ->
  only_forced_blinks (t1 ++ t2).
Proof.
  intros (A1 & B1 & C1) (A2 & B2 & C2). split; [|split].
  - intros b Hin. apply in_app_or in Hin as [Hin|Hin]; auto.
  - intros r Hin. apply in_app_or in Hin as [Hin|Hin];
      [now apply (B1 r)|now apply (B2 r)].
  - rewrite writes_app, clears_app, repeat_app, concat_app, C1, C2.
    reflexivity.
Qed.

Lemma only_forced_blinks_nil : only_forced_blinks [].
Proof. split; [|split]; [intros b []|intros r []|reflexivity]. Qed.

(** An iteration behind a closed gate. *)
Lemma run_iteration_gate_closed last e w :
  never_enables e ->
  _auto (animator w) = false ->
  only_forced_blinks (events (_run_iteration last) e w) /\
  _auto (animator (final (_run_iteration last) e w)) = false /\
  result (_run_iteration last) e w = last.
Proof.
  intros He Hw.
  assert (Ha : result (is_set Auto) e (final time e w) = false).
  { unfold result. rewrite is_set_spec. cbv zeta. cbn [fst get_flag].
    apply auto_apply_calls; [apply He|]. cbn.
    apply auto_apply_calls; [apply He|exact Hw]. }
  assert (Hidle := auto_blink_idle (result time e w) last e (final time e w)).
  rewrite Ha in Hidle. specialize (Hidle eq_refl).
  assert (Hw2 : _auto (animator (final (is_set Auto) e (final time e w)))
                = false).
  { cbn. apply auto_apply_calls; [apply He|].
    apply auto_apply_calls; [apply He|exact Hw]. }
  set (w2 := final (is_set Auto) e (final time e w)) in *.
  assert (Hres : result (auto_blink (result time e w) last) e (final time e w)
                 = last) by (unfold result at 1; now rewrite Hidle).
  assert (Hfin : final (auto_blink (result time e w) last) e (final time e w)
                 = w2) by (unfold final at 1; now rewrite Hidle).
  assert (Hev : events (auto_blink (result time e w) last) e (final time e w)
                = [EvIsSet Auto false])
    by (unfold events at 1; now rewrite Hidle).
  assert (Hspec := run_iteration_spec last e w). cbv zeta in Hspec.
  change (value (e (cursor w))) with (result time e w) in Hspec.
  rewrite Hres, Hfin, Hev in Hspec.
  unfold events, final, result. rewrite Hspec. cbn [fst snd].
  unfold events, final. rewrite forced_blink_spec. cbv zeta.
  destruct (_blink _) eqn:Hb; cbn [fst snd animator].
  - split; [|split; [|reflexivity]].
    + split; [|split].
      * intros b Hin. cbn in Hin.
        repeat (destruct Hin as [Hin|Hin]; [congruence|]). destruct Hin.
      * intros r Hin. cbn in Hin.
        repeat (destruct Hin as [Hin|Hin]; [discriminate|]). destruct Hin.
      * reflexivity.
    + cbn [put_state _auto]. apply auto_apply_calls; [apply He|].
      cbn [put_flag _auto]. apply auto_apply_calls; [apply He|].
      apply auto_apply_calls; [apply He|exact Hw2].
  - split; [|split; [|reflexivity]].
    + split; [|split].
      * intros b Hin. cbn in Hin.
        repeat (destruct Hin as [Hin|Hin]; [congruence|]). destruct Hin.
      * intros r Hin. cbn in Hin.
        repeat (destruct Hin as [Hin|Hin]; [discriminate|]). destruct Hin.
      * reflexivity.
    + apply auto_apply_calls; [apply He|exact Hw2].
Qed.

Lemma run_loop_gate_closed fuel : forall last e w,
  never_enables e ->
  _auto (animator w) = false ->
  only_forced_blinks (events (_run_loop fuel last) e w).
Proof.
  induction fuel as [|fuel IH]; intros last e w He Hw.
  - apply only_forced_blinks_nil.
  - cbn [_run_loop]. rewrite events_bind. apply only_forced_blinks_app.
    + split; [|split].
      * intros b [Hin|[]]. discriminate.
      * intros r [Hin|[]]. discriminate.
      * reflexivity.
    + assert (Hw1 : _auto (animator (final (is_set Stop) e w)) = false)
        by (cbn; apply auto_apply_calls; [apply He|exact Hw]).
      destruct (result (is_set Stop) e w); [apply only_forced_blinks_nil|].
      rewrite events_bind.
      destruct (run_iteration_gate_closed last e _ He Hw1) as (Hit & Hw2 & _).
      apply only_forced_blinks_app; [exact Hit|]. now apply IH.
Qed.

(** C6. While auto-blink is disabled and nobody re-enables it, a run of the
    loop of any length executes no autonomous blink, wherever the clock
    stands against the deadline: every test of the gate finds it closed, no
    new deadline is drawn, and every blink of the run answers one consumed
    request. A requested blink is still executed: the iteration that finds
    the flag runs exactly one blink. *)
Theorem disabled_gate_blocks_auto_blink
  (fuel : nat) (e : env) (w : world) (last : float) :
  _auto (animator w) = false ->
  never_enables e ->
  only_forced_blinks (events (_run_loop fuel last) e w) /\
  writes (events (_run_iteration last) e
            {| animator := trigger_blink (animator w); cursor := cursor w |})
  = blink_writes.
Proof.
  intros Hw He. split; [now apply run_loop_gate_closed|].
  set (w' := {| animator := trigger_blink (animator w); cursor := cursor w |}).
  assert (Hw' : _auto (animator w') = false) by exact Hw.
  destruct (run_iteration_writes e w' last) as (Hwr & _). cbv zeta in Hwr.
  rewrite Hwr.
  assert (Ha : result (is_set Auto) e (final time e w') = false).
  { cbn. apply auto_apply_calls; [apply He|].
    apply auto_apply_calls; [apply He|exact Hw]. }
  rewrite Ha. cbn [andb app].
  assert (Hidle := auto_blink_idle (result time e w') last e (final time e w')).
  rewrite Ha in Hidle. specialize (Hidle eq_refl).
  unfold final at 1. rewrite Hidle. cbn [fst snd].
  assert (Hb : result (is_set Blink) e (final (is_set Auto) e (final time e w'))
               = true).
  { cbn. do 3 apply blink_apply_calls. reflexivity. }
  rewrite Hb. reflexivity.
Qed.

(** The gate closed with [set_auto(False)], the deadline long past, a
    blink requested: three iterations run the one forced blink and no
    other. *)
Lemma disabled_gate_blocks_auto_blink_witness :
  only_forced_blinks (events (_run_loop 3 0.0) quiet w_disabled_triggered) /\
  writes (events (_run_loop 3 0.0) quiet w_disabled_triggered) = blink_writes.
Proof.
  split.
  - apply (disabled_gate_blocks_auto_blink 3 quiet w_disabled_triggered 0.0%float).
    + reflexivity.
    + intros i. reflexivity.
  - vm_compute. reflexivity.
Defined.

(** ** The host session loop, run *)

Lemma main_loop_while_nil e w :
  main_loop_while [] e w =
  (Break, w, prompt_events ++ [EvReadline ""; EvWrite Other nl]).
Proof. destruct w. reflexivity. Qed.

(** The actions of a command leave their events and apply its calls to the
    animator. *)
Lemma acts_spec acts : forall e w,
  for_each acts act e w =
  (tt,
   {| animator := apply_calls (calls_of acts) (animator w);
      cursor := cursor w |},
   flat_map act_events acts).
Proof.
  induction acts as [|a acts IH]; intros e w.
  - destruct w. reflexivity.
  - cbn [for_each]. unfold bind at 1. destruct a as [text|c].
    + cbn [act]. unfold print, emit at 1. rewrite IH. reflexivity.
    + cbn [act]. unfold bind at 1, update, emit at 1. cbn -[for_each].
      rewrite IH. reflexivity.
Qed.

Lemma main_loop_while_cons x rest e w :
  main_loop_while (x :: rest) e w =
  match x with
  | CtrlC =>
      (result (main_loop_while rest) e w, final (main_loop_while rest) e w,
       prompt_events ++ [EvInterrupted; EvWrite Other nl] ++
       events (main_loop_while rest) e w)
  | ReadRaises => (Propagate, w, prompt_events ++ [EvReadRaises])
  | Line line o acts =>
      if String.eqb line "" then
        (Break, w, prompt_events ++ [EvReadline line; EvWrite Other nl])
      else
        let w1 := after_acts acts w in
        match o with
        | RaisesSystemExit =>
            (Break, w1,
             prompt_events ++ [EvReadline line; EvHandle (rstrip_nl line) o] ++
             flat_map act_events acts)
        | RaisesBaseException =>
            (Propagate, w1,
             prompt_events ++ [EvReadline line; EvHandle (rstrip_nl line) o] ++
             flat_map act_events acts)
        | _ =>
            (result (main_loop_while rest) e w1,
             final (main_loop_while rest) e w1,
             prompt_events ++ [EvReadline line; EvHandle (rstrip_nl line) o] ++
             flat_map act_events acts ++
             response_events o ++ events (main_loop_while rest) e w1)
        end
  end.
Proof.
  unfold result, final, events.
  destruct x as [line o acts| |]; cbn [main_loop_while]; unfold bind.
  - cbn -[for_each main_loop_while]. 
    destruct (String.eqb line ""); [destruct w; reflexivity|].
    cbn -[for_each main_loop_while]. rewrite acts_spec. fold (after_acts acts w).
    cbv zeta.
    destruct o as [[res|]| |err|]; cbn -[main_loop_while flat_map].
    + unfold respond. destruct (String.eqb res ""); cbn -[main_loop_while flat_map];
        destruct (main_loop_while rest e (after_acts acts w)) as [[l w'] t];
        rewrite ?app_nil_r; reflexivity.
    + destruct (main_loop_while rest e (after_acts acts w)) as [[l w'] t];
        rewrite ?app_nil_r; reflexivity.
    + rewrite ?app_nil_r; reflexivity.
    + destruct (main_loop_while rest e (after_acts acts w)) as [[l w'] t];
        rewrite ?app_nil_r; reflexivity.
    + rewrite ?app_nil_r; reflexivity.
  - cbn. destruct (main_loop_while rest e w) as [[l w'] t]; reflexivity.
  - destruct w; reflexivity.
Qed.

(** The [finally] clause runs however the loop is left. *)
Lemma main_loop_spec stdin save e w :
  result (main_loop stdin save) e w =
    match result (main_loop_while stdin) e w, save with
    | Break, None => ReturnsNormally
    | _, _ => Raises
    end /\
  events (main_loop stdin save) e w =
    events (main_loop_while stdin) e w ++ shutdown_events /\
  _stop (animator (final (main_loop stdin save) e w)) = true.
Proof.
  unfold main_loop. rewrite !result_bind, !events_bind, !final_bind.
  split; [reflexivity|]. split; [reflexivity|]. reflexivity.
Qed.

Lemma acts_events_in acts ev :
  In ev (flat_map act_events acts) ->
  (exists text,
     ev = EvWrite Other (("(no TTS available) -> " ++ text) ++ nl)%string) \/
  exists c, ev = EvCall c.
Proof.
  induction acts as [|a acts IH]; cbn [flat_map]; [intros []|].
  intros H. apply in_app_or in H as [H|H]; [|now apply IH].
  destruct a as [text|c]; destruct H as [<-|[]]; eauto.
Qed.

Lemma response_events_in o ev :
  In ev (response_events o) ->
  ev = EvAcquire \/ ev = EvRelease \/ ev = EvFlush \/
  exists s, ev = EvWrite Response s.
Proof.
  destruct o as [[res|]| |err|]; cbn; try destruct (String.eqb res "");
    cbn; intuition eauto.
Qed.

(** Past the head of a turn that took a line. *)
Lemma turn_head_skip ev line o acts tl :
  ev <> EvReadline line -> ev <> EvHandle (rstrip_nl line) o ->
  (forall k s, ev <> EvWrite k s) -> (forall c, ev <> EvCall c) ->
  ev <> EvAcquire -> ev <> EvRelease -> ev <> EvFlush ->
  In ev (prompt_events ++ [EvReadline line; EvHandle (rstrip_nl line) o] ++
         flat_map act_events acts ++ tl) ->
  In ev tl.
Proof.
  intros H1 H2 H3 H4 H5 H6 H7 H.
  apply in_app_or in H as [H|H].
  { exfalso. cbn in H. destruct H as [H|[H|[H|[H|[]]]]]; subst ev;
      try congruence; try now apply (H3 Prompt ">>> "%string). }
  apply in_app_or in H as [H|H].
  { exfalso. destruct H as [H|[H|[]]]; congruence. }
  apply in_app_or in H as [H|H]; [|exact H].
  exfalso. apply acts_events_in in H as [[t H]|[c H]]; subst ev.
  - now apply (H3 Other (("(no TTS available) -> " ++ t) ++ nl)%string).
  - now apply (H4 c).
Qed.

Lemma response_skip ev o tl :
  (forall s, ev <> EvWrite Response s) ->
  ev <> EvAcquire -> ev <> EvRelease -> ev <> EvFlush ->
  In ev (response_events o ++ tl) -> In ev tl.
Proof.
  intros H1 H2 H3 H4 H. apply in_app_or in H as [H|H]; [|exact H].
  exfalso. apply response_events_in in H as [H|[H|[H|[s H]]]];
    try congruence; try now apply (H1 s).
Qed.

Lemma main_loop_while_eof stdin : forall e w,
  In (EvReadline "") (events (main_loop_while stdin) e w) ->
  result (main_loop_while stdin) e w = Break /\
  exists pre,
    events (main_loop_while stdin) e w =
    pre ++ [EvReadline ""; EvWrite Other nl].
Proof.
  induction stdin as [|x rest IH]; intros e w Hin.
  - unfold result, events. rewrite main_loop_while_nil.
    split; [reflexivity|]. exists prompt_events. reflexivity.
  - unfold result, events in Hin |- *.
    rewrite main_loop_while_cons in Hin |- *.
    destruct x as [line o acts| |].
    + destruct (String.eqb line "") eqn:Hline.
      * apply String.eqb_eq in Hline. subst line.
        split; [reflexivity|]. exists prompt_events. reflexivity.
      * assert (Hne : EvReadline "" <> EvReadline line)
          by (intros H; injection H as <-; discriminate).
        cbv zeta in Hin |- *.
        assert (Hskip : forall tl,
                  In (EvReadline "")
                    (prompt_events ++
                     [EvReadline line; EvHandle (rstrip_nl line) o] ++
                     flat_map act_events acts ++ tl) ->
                  In (EvReadline "") tl)
          by (intros tl; apply turn_head_skip; congruence).
        destruct o as [[res|]| |err|]; cbn [fst snd] in Hin |- *.
        all: try (exfalso;
                  rewrite <- (app_nil_r (flat_map act_events acts)) in Hin;
                  apply Hskip in Hin; exact Hin).
        all: apply Hskip in Hin; apply response_skip in Hin; try congruence;
          destruct (IH e _ Hin) as (Hres & pre & Hev);
          split; [exact Hres|]; rewrite Hev; eexists;
          rewrite !app_assoc; reflexivity.
    + cbn [fst snd] in *.
      apply in_app_or in Hin as [Hin|Hin];
        [exfalso; cbn in Hin;
         repeat (destruct Hin as [Hin|Hin]; [discriminate|]); exact Hin|].
      apply in_app_or in Hin as [Hin|Hin];
        [exfalso; cbn in Hin;
         repeat (destruct Hin as [Hin|Hin]; [discriminate|]); exact Hin|].
      destruct (IH e w Hin) as (Hres & pre & Hev).
      split; [exact Hres|]. rewrite Hev. eexists.
      rewrite !app_assoc. reflexivity.
    + exfalso. cbn in Hin.
      repeat (destruct Hin as [Hin|Hin]; [discriminate|]). exact Hin.
Qed.

(** [stop]: the flag is set, then the thread is joined with a timeout of
    one second. *)
Lemma stop_spec e w :
  events stop e w = [EvSet Stop; EvJoin 1] /\
  _stop (animator (final stop e w)) = true.
Proof. split; reflexivity. Qed.


(** C9. When [readline] returns the empty string (end of input), the
    session loop is left by [break], not by an exception; the read is
    followed by the bare newline and then by the shutdown of the [finally]
    clause, which calls [stop]: [_stop] is set and the animation thread is
    joined with a timeout of one second, after which the call goes on to
    the farewell and [save_memory]. [_stop] is set when [main_loop] is
    left, and [main_loop] returns normally unless that last [save_memory]
    raises. *)
Theorem eof_stops_the_animator
  (stdin : list stdin_event) (save : option string) (e : env) (w : world) :
  In (EvReadline "") (events (main_loop stdin save) e w) ->
  result (main_loop_while stdin) e w = Break /\
  (exists pre,
     events (main_loop stdin save) e w =
     pre ++ [EvReadline ""; EvWrite Other nl;
             EvSet Stop; EvJoin 1;
             EvWrite Other (nl ++ "Goodbye — memory saved." ++ nl)%string;
             EvSaveMemory]) /\
  _stop (animator (final (main_loop stdin save) e w)) = true /\
  result (main_loop stdin save) e w =
    match save with None => ReturnsNormally | Some _ => Raises end.
Proof.
  intros Hin.
  destruct (main_loop_spec stdin save e w) as (Hres & Hev & Hstop).
  rewrite Hev in Hin. apply in_app_or in Hin as [Hin|Hin].
  - destruct (main_loop_while_eof stdin e w Hin) as (Hbreak & pre & Hpre).
    split; [exact Hbreak|]. split; [|split; [exact Hstop|]].
    + exists pre. rewrite Hev, Hpre, <- app_assoc. reflexivity.
    + rewrite Hres, Hbreak. reflexivity.
  - exfalso. cbn in Hin.
    repeat (destruct Hin as [Hin|Hin]; [discriminate|]). exact Hin.
Qed.

(** Two lines answered, then the end of input. *)
Lemma eof_stops_the_animator_witness :
  result (main_loop
            [Line ("help" ++ nl)%string (Returns (Some "Available"%string)) [];
             Line ("clear" ++ nl)%string (Returns None) []] None) quiet w0
  = ReturnsNormally.
Proof.
  apply (eof_stops_the_animator
           [Line ("help" ++ nl)%string (Returns (Some "Available"%string)) [];
            Line ("clear" ++ nl)%string (Returns None) []] None quiet w0).
  vm_compute. repeat (first [left; reflexivity | right]).
Defined.

(** ** The output mutex *)

Lemma lock_scan_acts h acts tl :
  lock_scan h (flat_map act_events acts ++ tl) = lock_scan h tl.
Proof.
  induction acts as [|a acts IH]; [reflexivity|].
  cbn [flat_map]. rewrite <- app_assoc.
  destruct a as [text|c]; cbn [act_events app lock_scan guarded andb];
    destruct h; exact IH.
Qed.

Lemma main_loop_while_keeps_lock stdin : forall e w,
  keeps_lock (events (main_loop_while stdin) e w).
Proof.
  pose proof keeps_lock_closed as [_ Happ].
  induction stdin as [|x rest IH]; intros e w; unfold events.
  - rewrite main_loop_while_nil. reflexivity.
  - rewrite main_loop_while_cons. destruct x as [line o acts| |].
    + destruct (String.eqb line ""); [reflexivity|]. cbv zeta.
      assert (Hacts : keeps_lock (flat_map act_events acts)).
      { unfold keeps_lock. rewrite <- (app_nil_r (flat_map _ _)).
        now rewrite lock_scan_acts. }
      destruct o as [[res|]| |err|]; cbn [snd].
      all: apply Happ; [reflexivity|]; apply Happ; [reflexivity|];
        try exact Hacts.
      all: apply Happ; [exact Hacts|]; apply Happ; [|apply IH].
      * cbn [response_events]. destruct (String.eqb res ""); reflexivity.
      * reflexivity.
      * reflexivity.
    + cbn [snd]. apply Happ; [reflexivity|]. apply Happ; [reflexivity|].
      apply IH.
    + reflexivity.
Qed.

Lemma main_loop_keeps_lock stdin save e w :
  keeps_lock (events (main_loop stdin save) e w).
Proof.
  destruct (main_loop_spec stdin save e w) as (_ & Hev & _). rewrite Hev.
  apply keeps_lock_closed; [apply main_loop_while_keeps_lock|reflexivity].
Qed.

Lemma thread_eqb_eq s t : thread_eqb s t = true -> s = t.
Proof. destruct s, t; simpl; congruence. Qed.

Lemma thread_eqb_refl t : thread_eqb t t = true.
Proof. destruct t; reflexivity. Qed.

Lemma project_cons_same t ev sch :
  project t ((t, ev) :: sch) = ev :: project t sch.
Proof. unfold project. simpl. now rewrite thread_eqb_refl. Qed.

Lemma project_cons_other s t ev sch :
  thread_eqb t s = false -> project s ((t, ev) :: sch) = project s sch.
Proof. intros H. unfold project. simpl. now rewrite H. Qed.

Lemma lock_scan_guarded h ev tr :
  guarded ev = true -> lock_scan h (ev :: tr) <> None -> h = true.
Proof.
  destruct h; [reflexivity|]. intros Hg H. exfalso. apply H.
  destruct ev as [| | | | | | | | |k s| | | | | | | | |]; try discriminate;
    try reflexivity.
  destruct k; try discriminate; reflexivity.
Qed.

Lemma lock_scan_tail h ev tr :
  ev <> EvAcquire -> ev <> EvRelease ->
  lock_scan h (ev :: tr) <> None -> lock_scan h tr <> None.
Proof.
  intros Ha Hr H.
  destruct ev as [| | | | | | | | |k s| | | | | | | | |]; try congruence;
    try destruct k; destruct h; simpl in H; congruence.
Qed.

(** Under the lock's rules, a thread that keeps the discipline performs its
    guarded actions only as the owner. *)
Lemma guarded_by_owner pre : forall sch o t ev post,
  mutex_scan o sch <> None ->
  (forall s, lock_scan (holds o s) (project s sch) <> None) ->
  sch = pre ++ (t, ev) :: post ->
  guarded ev = true ->
  mutex_scan o pre = Some (Some t).
Proof.
  induction pre as [|[t' ev'] pre IH]; intros sch o t ev post Hm Hl -> Hg.
  - specialize (Hl t). rewrite app_nil_l, project_cons_same in Hl.
    apply (lock_scan_guarded _ _ _ Hg) in Hl.
    destruct o as [t'|]; [|discriminate].
    apply thread_eqb_eq in Hl. now subst.
  - rewrite <- app_comm_cons in Hm, Hl.
    assert (Hstep : forall o',
              mutex_scan o' (pre ++ (t, ev) :: post) <> None ->
              (forall s, lock_scan (holds o' s)
                           (project s (pre ++ (t, ev) :: post)) <> None) ->
              mutex_scan o' pre = Some (Some t))
      by (intros o' H1 H2; now apply (IH _ o' t ev post H1 H2)).
    destruct ev' as [| | | | | | | | | | | | | | | | | |];
      try (simpl in Hm |- *; apply Hstep; [exact Hm|];
           intros th; specialize (Hl th);
           destruct (thread_eqb t' th) eqn:Hts;
           [apply thread_eqb_eq in Hts; subst th;
            rewrite project_cons_same in Hl;
            apply lock_scan_tail in Hl; [exact Hl|discriminate|discriminate]
           |rewrite (project_cons_other _ _ _ _ Hts) in Hl; exact Hl]).
    + (* the lock is taken *)
      simpl in Hm |- *. destruct o as [t''|]; [congruence|].
      apply Hstep; [exact Hm|]. intros s. specialize (Hl s).
      destruct (thread_eqb t' s) eqn:Hts.
      * apply thread_eqb_eq in Hts. subst s.
        rewrite project_cons_same in Hl. simpl in Hl |- *.
        now rewrite thread_eqb_refl.
      * rewrite (project_cons_other _ _ _ _ Hts) in Hl. simpl in Hl |- *.
        destruct s, t'; simpl in *; congruence.
    + (* the lock is released *)
      simpl in Hm |- *. destruct o as [t''|]; [|congruence].
      destruct (thread_eqb t' t'') eqn:Ho; [|congruence].
      apply thread_eqb_eq in Ho. subst t''.
      apply Hstep; [exact Hm|]. intros s. specialize (Hl s).
      destruct (thread_eqb t' s) eqn:Hts.
      * apply thread_eqb_eq in Hts. subst s.
        rewrite project_cons_same in Hl. simpl in Hl |- *.
        rewrite thread_eqb_refl in Hl. exact Hl.
      * rewrite (project_cons_other _ _ _ _ Hts) in Hl. simpl in Hl |- *.
        destruct s, t'; simpl in *; congruence.
Qed.

(** One step of a run of the lock by threads that keep the discipline:
    what the event says about the owner before and after it. *)
Lemma event_lock_cases ev :
  ev = EvAcquire \/ ev = EvRelease \/ (ev <> EvAcquire /\ ev <> EvRelease).
Proof. destruct ev; auto; right; right; split; discriminate. Qed.

Lemma mutex_scan_other o t ev sch :
  ev <> EvAcquire -> ev <> EvRelease ->
  mutex_scan o ((t, ev) :: sch) = mutex_scan o sch.
Proof. intros Ha Hr. destruct ev; try congruence; reflexivity. Qed.

Lemma mutex_step o t ev sch :
  mutex_scan o ((t, ev) :: sch) <> None ->
  (forall s, lock_scan (holds o s) (project s ((t, ev) :: sch)) <> None) ->
  exists o',
    mutex_scan o' sch <> None /\
    (forall s, lock_scan (holds o' s) (project s sch) <> None) /\
    (guarded ev = true -> o = Some t) /\
    (ev = EvAcquire -> o = None) /\
    (ev = EvRelease -> o = Some t) /\
    (ev <> EvAcquire -> ev <> EvRelease -> o' = o).
Proof.
  intros Hm Hl.
  destruct (event_lock_cases ev) as [->|[->|[Ha Hr]]].
  - simpl in Hm. destruct o as [t'|]; [congruence|]. exists (Some t).
    split; [exact Hm|]. split; [|repeat split; cbn; intros; congruence].
    intros s. specialize (Hl s). destruct (thread_eqb t s) eqn:Hts.
    + apply thread_eqb_eq in Hts. subst s.
      rewrite project_cons_same in Hl. simpl in Hl |- *.
      now rewrite thread_eqb_refl.
    + rewrite (project_cons_other _ _ _ _ Hts) in Hl. simpl in Hl |- *.
      destruct s, t; simpl in *; congruence.
  - simpl in Hm. destruct o as [t'|]; [|congruence].
    destruct (thread_eqb t t') eqn:Ho; [|congruence].
    apply thread_eqb_eq in Ho. subst t'. exists None.
    split; [exact Hm|]. split; [|repeat split; cbn; intros; congruence].
    intros s. specialize (Hl s). destruct (thread_eqb t s) eqn:Hts.
    + apply thread_eqb_eq in Hts. subst s.
      rewrite project_cons_same in Hl. simpl in Hl |- *.
      rewrite thread_eqb_refl in Hl. exact Hl.
    + rewrite (project_cons_other _ _ _ _ Hts) in Hl. simpl in Hl |- *.
      destruct s, t; simpl in *; congruence.
  - rewrite (mutex_scan_other _ _ _ _ Ha Hr) in Hm. exists o.
    split; [exact Hm|]. split; [|split; [|repeat split; intros; congruence]].
    + intros s. specialize (Hl s). destruct (thread_eqb t s) eqn:Hts.
      * apply thread_eqb_eq in Hts. subst s.
        rewrite project_cons_same in Hl.
        now apply lock_scan_tail in Hl.
      * now rewrite (project_cons_other _ _ _ _ Hts) in Hl.
    + intros Hg. specialize (Hl t). rewrite project_cons_same in Hl.
      apply (lock_scan_guarded _ _ _ Hg) in Hl.
      destruct o as [t'|]; [|discriminate].
      apply thread_eqb_eq in Hl. now subst.
Qed.

(** ** Frames and the writes of the host *)

Lemma frame_scan_app t1 : forall b t2,
  frame_scan b (t1 ++ t2) =
  match frame_scan b t1 with
  | Some b' => frame_scan b' t2
  | None => None
  end.
Proof.
  induction t1 as [|ev t1 IH]; intros b t2; [reflexivity|].
  destruct ev as [| | | | | | | | |k s| | | | | | | | |]; cbn [app frame_scan];
    try (destruct b; [reflexivity|apply IH]).
  destruct k; try (destruct b; [reflexivity|apply IH]). apply IH.
Qed.

(** The frame writes of the animation loop come in pairs. *)
Lemma run_frames_paired fuel e w :
  frame_scan false (events (_run fuel) e w) = Some false.
Proof.
  apply (P_run (fun tr => frame_scan false tr = Some false)).
  - split; [reflexivity|]. intros t1 t2 H1 H2.
    now rewrite frame_scan_app, H1.
  - intros ev Hn. destruct ev as [| | | | | | | | |k s| | | | | | | | |];
      try discriminate; reflexivity.
  - intros r. reflexivity.
  - intros v. reflexivity.
Qed.

Lemma frame_cases ev :
  (exists s, ev = EvWrite Frame s) \/
  ((forall inside tr,
      frame_scan inside (ev :: tr) =
      if inside then None else frame_scan false tr) /\
   (forall hw inside sch,
      frame_split hw inside ((Animation, ev) :: sch) =
      frame_split hw inside sch)).
Proof.
  destruct ev as [| | | | | | | | |k s| | | | | | | | |];
    try (right; split; reflexivity).
  destruct k; try (right; split; reflexivity). left. now exists s.
Qed.

Lemma is_reply_guarded ev : is_reply ev = true -> guarded ev = true.
Proof.
  destruct ev as [| | | | | | | | |k s| | | | | | | | |]; try discriminate.
  destruct k; try discriminate; reflexivity.
Qed.

(** While the animation is between the two writes of a frame it owns the
    lock, so no write the host makes under the lock can fall there. *)
Lemma replies_never_split sch : forall o inside,
  mutex_scan o sch <> None ->
  (forall s, lock_scan (holds o s) (project s sch) <> None) ->
  frame_scan inside (project Animation sch) <> None ->
  (inside = true -> o = Some Animation) ->
  frame_split is_reply inside sch = false.
Proof.
  induction sch as [|[t ev] sch IH]; intros o inside Hm Hl Hf Hi;
    [reflexivity|].
  destruct (mutex_step o t ev sch Hm Hl) as (o' & Hm' & Hl' & Hg & Ha & Hr & Ho).
  destruct t.
  - rewrite project_cons_same in Hf.
    destruct (frame_cases ev) as [[s ->]|[Hfs Hsp]].
    + cbn [frame_split]. cbn [frame_scan] in Hf.
      apply (IH o'); auto. intros _.
      rewrite Ho by discriminate. now apply Hg.
    + rewrite Hsp. rewrite Hfs in Hf. destruct inside; [congruence|].
      apply (IH o'); auto. discriminate.
  - rewrite project_cons_other in Hf by reflexivity. cbn [frame_split].
    assert (Hno : inside && is_reply ev = false).
    { destruct inside; [|reflexivity]. specialize (Hi eq_refl). subst o.
      destruct (is_reply ev) eqn:Hrep; [|reflexivity].
      apply is_reply_guarded, Hg in Hrep. discriminate. }
    rewrite Hno. cbn [orb]. apply (IH o'); auto.
    intros Hin. specialize (Hi Hin). subst o.
    destruct (event_lock_cases ev) as [->|[->|[H1 H2]]].
    + specialize (Ha eq_refl). discriminate.
    + specialize (Hr eq_refl). discriminate.
    + now apply Ho.
Qed.

(** C8, the counterexample. Ctrl+C is pressed at the prompt while the
    animation loop runs an iteration. The run below is a run of the two
    threads ([_run] for one iteration, [main_loop] on that input) that
    obeys the lock, and in it the empty line the host prints after the
    interrupt, with no lock, falls between the screen clear and the face of
    the frame: the host's print and the redraw interleave. So
    [prints_never_interleave], the specification's reading, fails. *)
Lemma host_newline_splits_frame :
  (project Animation split_schedule = events (_run 1) quiet w0 /\
   project Host split_schedule = events (main_loop [CtrlC] None) quiet w0 /\
   mutex_scan None split_schedule = Some None /\
   frame_split is_write false split_schedule = true /\
   firstn 3 (skipn 51 split_schedule) =
     [(Animation, EvWrite Frame SCREEN_CLEAR);
      (Host, EvWrite Other nl);
      (Animation, EvWrite Frame (_draw 1.0 ++ nl ++ nl)%string)]) /\
  ~ prints_never_interleave.
Proof.
  assert (H1 : project Animation split_schedule = events (_run 1) quiet w0)
    by (vm_compute; reflexivity).
  assert (H2 : project Host split_schedule
               = events (main_loop [CtrlC] None) quiet w0)
    by (vm_compute; reflexivity).
  assert (H3 : mutex_scan None split_schedule = Some None)
    by (vm_compute; reflexivity).
  assert (H4 : frame_split is_write false split_schedule = true)
    by (vm_compute; reflexivity).
  split.
  - split; [exact H1|]. split; [exact H2|]. split; [exact H3|].
    split; [exact H4|]. vm_compute. reflexivity.
  - intros Hspec.
    assert (H3' : mutex_scan None split_schedule <> None)
      by (rewrite H3; discriminate).
    rewrite (Hspec 1 [CtrlC] None quiet quiet w0 w0 split_schedule H1 H2 H3')
      in H4.
    discriminate.
Qed.

(** C8, as the code has it. In every run of the animation loop the reads
    and assignments of [_state] and the writes of a frame happen inside
    [with self._lock:], and in every run of [main_loop] so do the writes of
    the prompt and of a response. So in any run of the two threads that
    obeys the lock, each of these actions is performed by the thread that
    owns the lock at that moment, and no prompt or response of the host
    falls between the two writes of a frame. *)
Theorem output_mutex_excludes
  (fuel : nat) (stdin : list stdin_event) (save : option string)
  (e e' : env) (w w' : world) (sch : schedule) :
  project Animation sch = events (_run fuel) e w ->
  project Host sch = events (main_loop stdin save) e' w' ->
  mutex_scan None sch <> None ->
  lock_scan false (events (_run fuel) e w) = Some false /\
  lock_scan false (events (main_loop stdin save) e' w') = Some false /\
  (forall pre t ev post,
     sch = pre ++ (t, ev) :: post ->
     guarded ev = true ->
     owner_after pre = Some t) /\
  frame_split is_reply false sch = false.
Proof.
  intros Ha Hh Hm.
  assert (Hl : forall s, lock_scan (holds None s) (project s sch) <> None).
  { intros [|]; simpl.
    - rewrite Ha, (run_keeps_lock fuel e w). discriminate.
    - rewrite Hh, (main_loop_keeps_lock stdin save e' w'). discriminate. }
  split; [apply run_keeps_lock|]. split; [apply main_loop_keeps_lock|].
  split.
  - intros pre t ev post Hsch Hg. unfold owner_after.
    now rewrite (guarded_by_owner pre sch None t ev post Hm).
  - apply (replies_never_split sch None false Hm Hl); [|discriminate].
    rewrite Ha, run_frames_paired. discriminate.
Qed.

(** The run of the counterexample: the first assignment of the blink is
    made by the animation thread as the owner of the lock, and no prompt
    falls inside the frame. *)
Lemma output_mutex_excludes_witness :
  owner_after (firstn 11 split_schedule) = Some Animation /\
  frame_split is_reply false split_schedule = false.
Proof.
  assert (H1 : project Animation split_schedule = events (_run 1) quiet w0)
    by (vm_compute; reflexivity).
  assert (H2 : project Host split_schedule
               = events (main_loop [CtrlC] None) quiet w0)
    by (vm_compute; reflexivity).
  assert (H3 : mutex_scan None split_schedule <> None)
    by (vm_compute; discriminate).
  pose proof (output_mutex_excludes 1 [CtrlC] None quiet quiet w0 w0
                split_schedule H1 H2 H3) as (_ & _ & Hown & Hsplit).
  split; [|exact Hsplit].
  apply (Hown (firstn 11 split_schedule) Animation (EvSetState 0.8)
           (skipn 12 split_schedule)).
  - vm_compute. reflexivity.
  - reflexivity.
Defined.

(** What the lock does not cover in [main_loop]: the bare newline printed
    at the end of input (and after Ctrl+C), the farewell and the note of
    [speak] are written without the lock. They are of kind [Other], none
    of the guarded actions. *)
Lemma bare_prints_outside_lock :
  exists pre post,
    events (main_loop [] None) quiet w0 = pre ++ EvWrite Other nl :: post /\
    lock_scan false pre = Some false /\
    guarded (EvWrite Other nl) = false.
Proof.
  exists (prompt_events ++ [EvReadline ""%string]), shutdown_events.
  repeat split.
Qed.

(** * Beyond the claims *)

(** ** How the public methods compose *)

Lemma apply_calls_fields (cs : list call) (a : EyeAnimator) :
  apply_calls cs a =
  {| _stop := _stop a || existsb is_stop cs;
     _blink := _blink a || existsb triggers cs;
     _auto := last_auto cs (_auto a);
     _state := _state a |}.
Proof.
  revert a. unfold apply_calls.
  induction cs as [|c cs IH]; intros [s b au v]; simpl.
  - now rewrite !orb_false_r.
  - rewrite IH. destruct c as [|[]|]; simpl;
      rewrite ?orb_true_r, ?orb_false_r, ?orb_true_l; reflexivity.
Qed.

(** X1. Any sequence of calls of [trigger_blink], [set_auto] and [stop]
    leaves [_stop] set iff it was set or [stop] is among them, [_blink] set
    iff it was set or [trigger_blink] is among them, [_auto] as the last
    [set_auto] asked (or as it was), and [_state] as it was: a stop cannot
    be undone, a blink request cannot be withdrawn, the last [set_auto]
    wins. *)
Theorem public_calls_compose (cs : list call) (a : EyeAnimator) :
  _stop (apply_calls cs a) = _stop a || existsb is_stop cs /\
  _blink (apply_calls cs a) = _blink a || existsb triggers cs /\
  _auto (apply_calls cs a) = last_auto cs (_auto a) /\
  _state (apply_calls cs a) = _state a.
Proof. rewrite apply_calls_fields. repeat split. Qed.

(** ** What the loop draws *)

Lemma blink_events_show_open r : Forall shows_open_eyes (blink_events r).
Proof. repeat constructor. Qed.

Lemma run_iteration_draws_open last e w :
  _state (animator w) = 1.0%float ->
  _state (animator (final (_run_iteration last) e w)) = 1.0%float /\
  Forall shows_open_eyes (events (_run_iteration last) e w).
Proof.
  intros Hw.
  assert (H1 : _state (animator (final time e w)) = 1.0%float)
    by (cbn; now rewrite state_apply_calls).
  set (w1 := final time e w) in *.
  set (now := value (e (cursor w))).
  assert (H2 : _state (animator (final (auto_blink now last) e w1))
               = 1.0%float).
  { unfold final. rewrite auto_blink_spec. cbv zeta.
    destruct (_ && _); cbn [fst snd animator];
      rewrite !state_apply_calls; [reflexivity|exact H1]. }
  set (w2 := final (auto_blink now last) e w1) in *.
  assert (H3 : _state (animator (final forced_blink e w2)) = 1.0%float).
  { unfold final. rewrite forced_blink_spec. cbv zeta.
    destruct (_blink _); cbn [fst snd animator];
      [reflexivity|now rewrite state_apply_calls]. }
  unfold final, events. rewrite run_iteration_spec. cbv zeta.
  cbn [fst snd]. fold now. fold w1. fold w2. split; [exact H3|].
  rewrite H3. apply Forall_app. split; [repeat constructor|].
  apply Forall_app. split.
  { unfold events. rewrite auto_blink_spec. cbv zeta.
    destruct (_ && _); cbn [snd].
    - constructor; [exact I|]. apply Forall_app. split.
      + apply blink_events_show_open.
      + repeat constructor.
    - repeat constructor. }
  apply Forall_app. split.
  { unfold events. rewrite forced_blink_spec. cbv zeta.
    destruct (_blink _); cbn [snd].
    - do 2 (constructor; [exact I|]). apply blink_events_show_open.
    - repeat constructor. }
  apply Forall_app. split.
  - unfold redraw_events.
    constructor; [exact I|]. constructor; [reflexivity|].
    constructor; [now left|]. constructor; [right; reflexivity|].
    repeat constructor.
  - repeat constructor.
Qed.

Lemma run_loop_draws_open fuel : forall last e w,
  _state (animator w) = 1.0%float ->
  Forall shows_open_eyes (events (_run_loop fuel last) e w).
Proof.
  induction fuel as [|fuel IH]; intros last e w Hw.
  - constructor.
  - cbn [_run_loop]. rewrite events_bind. apply Forall_app. split.
    + repeat constructor.
    + assert (H1 : _state (animator (final (is_set Stop) e w)) = 1.0%float)
        by (cbn; now rewrite state_apply_calls).
      destruct (result (is_set Stop) e w); [constructor|].
      rewrite events_bind.
      destruct (run_iteration_draws_open last e _ H1) as [H2 H3].
      apply Forall_app. split; [exact H3|]. now apply IH.
Qed.

(** X2. The blink is never drawn. [_do_blink] runs inside the iteration and
    ends with [_state = 1.0] before the iteration redraws, so in a run that
    starts with the eyes open every state the loop reads for drawing is
    [1.0] and every frame it writes is the screen clear followed by the
    open face: the half-open and closed faces never reach the terminal. *)
Theorem blink_is_never_drawn (fuel : nat) (e : env) (w : world) :
  _state (animator w) = 1.0%float ->
  Forall shows_open_eyes (events (_run fuel) e w).
Proof.
  intros Hw. unfold _run. rewrite !events_bind.
  apply Forall_app. split; [repeat constructor|].
  apply Forall_app. split; [repeat constructor|].
  apply run_loop_draws_open. cbn. now rewrite !state_apply_calls.
Qed.

(** The run of three iterations of the fresh animator draws open eyes. *)
Lemma blink_is_never_drawn_witness :
  Forall shows_open_eyes (events (_run 3) quiet w0).
Proof. apply (blink_is_never_drawn 3 quiet w0). reflexivity. Defined.

(** ** Frames and iterations *)

Lemma frames_app t1 t2 : frames (t1 ++ t2) = frames t1 + frames t2.
Proof. unfold frames. now rewrite filter_app, length_app. Qed.

Lemma iterations_app t1 t2 :
  iterations (t1 ++ t2) = iterations t1 + iterations t2.
Proof. unfold iterations. now rewrite filter_app, length_app. Qed.

(** A face is never mistaken for the screen clear. *)
Lemma draw_is_not_clear v :
  String.eqb (_draw v ++ nl ++ nl)%string SCREEN_CLEAR = false.
Proof.
  unfold _draw. destruct (PyFloat.ge v 0.66); [reflexivity|].
  destruct (PyFloat.ge v 0.33); reflexivity.
Qed.

Lemma frames_redraw_events v : frames (redraw_events v) = 1.
Proof.
  unfold frames, redraw_events. cbn [filter is_frame_clear].
  rewrite String.eqb_refl, draw_is_not_clear. reflexivity.
Qed.

Lemma frames_blink_events r : frames (blink_events r) = 0.
Proof. reflexivity. Qed.

Lemma run_iteration_counts last e w :
  frames (events (_run_iteration last) e w) = 1 /\
  iterations (events (_run_iteration last) e w) = 0.
Proof.
  destruct (run_iteration_events e w last) as (r1 & r2 & r3 & v & Hev).
  cbv zeta in Hev. rewrite Hev. clear Hev.
  rewrite !frames_app, !iterations_app, frames_redraw_events.
  split.
  - destruct (_ && _); destruct (result (is_set Blink) e _);
      rewrite ?frames_app; change (frames (_ :: blink_events r3))
        with (frames (blink_events r3));
      rewrite ?frames_blink_events; reflexivity.
  - destruct (_ && _); destruct (result (is_set Blink) e _); reflexivity.
Qed.

Lemma run_loop_counts fuel : forall last e w,
  frames (events (_run_loop fuel last) e w)
  = iterations (events (_run_loop fuel last) e w).
Proof.
  induction fuel as [|fuel IH]; intros last e w.
  - reflexivity.
  - cbn [_run_loop]. rewrite events_bind, frames_app, iterations_app.
    unfold events at 1 3. rewrite is_set_spec. cbv zeta. cbn [snd].
    unfold result. rewrite is_set_spec. cbv zeta. cbn [fst].
    destruct (get_flag Stop _); [reflexivity|].
    rewrite events_bind, frames_app, iterations_app, IH.
    destruct (run_iteration_counts last e (final (is_set Stop) e w))
      as [-> ->].
    reflexivity.
Qed.

(** X3. Every iteration the loop starts draws exactly one frame, with or
    without a blink: in any run the number of frames (screen clears
    written) equals the number of loop-head checks that found [_stop]
    clear. *)
Theorem one_frame_per_iteration (fuel : nat) (e : env) (w : world) :
  frames (events (_run fuel) e w) = iterations (events (_run fuel) e w).
Proof.
  unfold _run. rewrite !events_bind, !frames_app, !iterations_app.
  rewrite run_loop_counts. reflexivity.
Qed.

(** ** Stopping *)

Section StopLands.

(** A [stop()] lands in slot [i] of the environment. *)
Variable e : env.
Variable i : nat.
Hypothesis stop_in_slot : existsb is_stop (calls (e i)) = true.













End StopLands.





(** ** Blocking while holding the lock *)

Lemma calm_scan_app t1 : forall h t2,
  calm_scan h (t1 ++ t2) =
  match calm_scan h t1 with
  | Some h' => calm_scan h' t2
  | None => None
  end.
Proof.
  induction t1 as [|ev t1 IH]; intros h t2; simpl; [reflexivity|].
  destruct ev; destruct h; simpl; try reflexivity; apply IH.
Qed.

Lemma never_blocks_locked_closed : closed_under_app never_blocks_locked.
Proof.
  split; [reflexivity|]. unfold never_blocks_locked. intros t1 t2 H1 H2.
  now rewrite calm_scan_app, H1.
Qed.

Lemma run_never_blocks_locked fuel e w :
  never_blocks_locked (events (_run fuel) e w).
Proof.
  apply P_run.
  - apply never_blocks_locked_closed.
  - intros ev Hn. destruct ev; try discriminate; reflexivity.
  - intros r. reflexivity.
  - intros v. reflexivity.
Qed.

Lemma calm_scan_acts h acts tl :
  calm_scan h (flat_map act_events acts ++ tl) = calm_scan h tl.
Proof.
  induction acts as [|a acts IH]; [reflexivity|].
  cbn [flat_map]. rewrite <- app_assoc.
  destruct a as [text|c]; cbn [act_events app calm_scan blocking andb];
    destruct h; exact IH.
Qed.

Lemma main_loop_while_never_blocks_locked stdin : forall e w,
  never_blocks_locked (events (main_loop_while stdin) e w).
Proof.
  pose proof never_blocks_locked_closed as [_ Happ].
  induction stdin as [|x rest IH]; intros e w; unfold events.
  - rewrite main_loop_while_nil. reflexivity.
  - rewrite main_loop_while_cons. destruct x as [line o acts| |].
    + destruct (String.eqb line ""); [reflexivity|]. cbv zeta.
      assert (Hacts : never_blocks_locked (flat_map act_events acts)).
      { unfold never_blocks_locked. rewrite <- (app_nil_r (flat_map _ _)).
        now rewrite calm_scan_acts. }
      destruct o as [[res|]| |err|]; cbn [snd].
      all: apply Happ; [reflexivity|]; apply Happ; [reflexivity|];
        try exact Hacts.
      all: apply Happ; [exact Hacts|]; apply Happ; [|apply IH].
      * cbn [response_events]. destruct (String.eqb res ""); reflexivity.
      * reflexivity.
      * reflexivity.
    + cbn [snd]. apply Happ; [reflexivity|]. apply Happ; [reflexivity|].
      apply IH.
    + reflexivity.
Qed.

(** X5. Neither thread blocks while it holds the lock. In every run of the
    animation loop all sleeps fall between a release and the next acquire,
    and in every run of [main_loop] the lock is held only around the writes
    of the prompt, of a response and of the screen clear: reading a line,
    running a command, joining the thread and saving the memory happen with
    the lock released. So the lock is held for a few terminal writes or one
    assignment at a time. *)
Theorem lock_is_never_held_while_blocking
  (fuel : nat) (stdin : list stdin_event) (save : option string)
  (e e' : env) (w w' : world) :
  never_blocks_locked (events (_run fuel) e w) /\
  never_blocks_locked (events (main_loop stdin save) e' w').
Proof.
  split; [apply run_never_blocks_locked|].
  destruct (main_loop_spec stdin save e' w') as (_ & Hev & _). rewrite Hev.
  apply never_blocks_locked_closed;
    [apply main_loop_while_never_blocks_locked|reflexivity].
Qed.

(** ** The session loop, turn by turn *)

Lemma main_loop_while_goes_on stdin : forall e w,
  forallb goes_on stdin = true ->
  result (main_loop_while stdin) e w = Break /\
  events (main_loop_while stdin) e w =
    flat_map turn_events stdin ++
    prompt_events ++ [EvReadline ""%string; EvWrite Other nl].
Proof.
  induction stdin as [|x rest IH]; intros e w Hgo.
  - unfold result, events. rewrite main_loop_while_nil. split; reflexivity.
  - cbn [forallb] in Hgo. apply andb_prop in Hgo as [Hx Hrest].
    unfold result, events. rewrite main_loop_while_cons.
    cbn [flat_map].
    destruct x as [line o acts| |]; cbn [goes_on] in Hx; [| |discriminate].
    + apply andb_prop in Hx as [Hline Ho].
      apply negb_true_iff in Hline. rewrite Hline. cbv zeta.
      destruct (IH e (after_acts acts w) Hrest) as (Hres & Hev).
      unfold turn_events.
      destruct o as [[res|]| |err|]; try discriminate; cbn [fst snd];
        rewrite Hres, Hev; (split; [reflexivity|]);
        rewrite <- !app_assoc; reflexivity.
    + destruct (IH e w Hrest) as (Hres & Hev). cbn [fst snd].
      rewrite Hres, Hev. split; [reflexivity|].
      unfold turn_events. rewrite <- !app_assoc. reflexivity.
Qed.

(** X6. The session survives every ordinary turn. If each turn of the
    script is a Ctrl+C at the prompt or a non-empty line whose command
    returns or raises an [Exception], the loop handles the turns one after
    the other, each with its own prompt and (for a line) the actions of its
    command and its answer or the text [Error handling command: ...] under
    the lock, reads on to the end of input and shuts down; [main_loop]
    then returns normally when the [save_memory] of the shutdown returns,
    and raises when that one raises. *)
Theorem session_survives_ordinary_turns
  (stdin : list stdin_event) (save : option string) (e : env) (w : world) :
  forallb goes_on stdin = true ->
  result (main_loop stdin save) e w =
    match save with None => ReturnsNormally | Some _ => Raises end /\
  events (main_loop stdin save) e w =
    flat_map turn_events stdin ++
    prompt_events ++ [EvReadline ""%string; EvWrite Other nl] ++
    shutdown_events.
Proof.
  intros Hgo.
  destruct (main_loop_spec stdin save e w) as (Hres & Hev & _).
  destruct (main_loop_while_goes_on stdin e w Hgo) as (Hbreak & Hrun).
  rewrite Hres, Hev, Hbreak, Hrun.
  split; [reflexivity|]. rewrite <- !app_assoc. reflexivity.
Qed.

(** A command whose save fails, a Ctrl+C and an empty answer, then the end
    of input, where the save of the shutdown fails as well. *)
Lemma session_survives_ordinary_turns_witness :
  result (main_loop
            [Line ("remember a = b" ++ nl)%string
               (RaisesException "disk full") [];
             CtrlC;
             Line nl (Returns (Some ""%string)) []]
            (Some "disk full"%string)) quiet w0
  = Raises.
Proof.
  apply (session_survives_ordinary_turns
           [Line ("remember a = b" ++ nl)%string
              (RaisesException "disk full") [];
            CtrlC; Line nl (Returns (Some ""%string)) []]
           (Some "disk full"%string) quiet w0).
  reflexivity.
Defined.

Lemma main_loop_while_stops_reading pre : forall x rest e w,
  goes_on x = false ->
  main_loop_while (pre ++ x :: rest) e w = main_loop_while (pre ++ [x]) e w.
Proof.
  induction pre as [|p pre IH]; intros x rest e w Hx.
  - cbn [app]. rewrite !main_loop_while_cons.
    destruct x as [line o acts| |]; [|discriminate|reflexivity].
    cbn [goes_on] in Hx.
    destruct (String.eqb line ""); [reflexivity|].
    destruct o as [[res|]| |err|]; try discriminate; reflexivity.
  - cbn [app]. rewrite !main_loop_while_cons.
    unfold result, final, events.
    destruct p as [line o acts| |]; [|now rewrite (IH x rest e w Hx)|
                                     reflexivity].
    cbv zeta. now rewrite (IH x rest e (after_acts acts w) Hx).
Qed.

(** X7. Nothing is read after the turn that ends the loop. A turn that is
    the end of input, or a line whose command raises [SystemExit] (the
    [exit] and [quit] commands) or another [BaseException], or a read that
    raises, is the last one the loop takes: whatever standard input holds
    after it does not change the run. *)
Theorem nothing_is_read_after_exit
  (pre rest : list stdin_event) (x : stdin_event) (save : option string)
  (e : env) (w : world) :
  goes_on x = false ->
  main_loop (pre ++ x :: rest) save e w = main_loop (pre ++ [x]) save e w.
Proof.
  intros Hx. unfold main_loop, bind.
  rewrite (main_loop_while_stops_reading pre x rest e w Hx). reflexivity.
Qed.

(** After [exit], a further line is not handled. *)
Lemma nothing_is_read_after_exit_witness :
  main_loop [Line ("exit" ++ nl)%string RaisesSystemExit [];
             Line ("joke" ++ nl)%string (Returns (Some "ha"%string))
               [Note "ha"%string]] None quiet w0
  = main_loop [Line ("exit" ++ nl)%string RaisesSystemExit []] None quiet w0.
Proof.
  apply (nothing_is_read_after_exit []
           [Line ("joke" ++ nl)%string (Returns (Some "ha"%string))
              [Note "ha"%string]]
           (Line ("exit" ++ nl)%string RaisesSystemExit []) None quiet w0).
  reflexivity.
Defined.

(** ** Leaving the session *)

Lemma escapes_acts acts : existsb escapes (flat_map act_events acts) = false.
Proof.
  induction acts as [|a acts IH]; [reflexivity|].
  cbn [flat_map]. rewrite existsb_app, IH. now destruct a.
Qed.

Lemma escapes_response o : existsb escapes (response_events o) = false.
Proof.
  destruct o as [[res|]| |err|]; cbn; try destruct (String.eqb res "");
    reflexivity.
Qed.

Lemma main_loop_while_propagates stdin : forall e w,
  result (main_loop_while stdin) e w =
  if existsb escapes (events (main_loop_while stdin) e w)
  then Propagate else Break.
Proof.
  induction stdin as [|x rest IH]; intros e w; unfold result, events.
  - rewrite main_loop_while_nil. reflexivity.
  - rewrite main_loop_while_cons. destruct x as [line o acts| |].
    + destruct (String.eqb line ""); [reflexivity|]. cbv zeta.
      destruct o as [[res|]| |err|]; cbn [fst snd];
        rewrite ?existsb_app, ?escapes_acts, ?escapes_response;
        cbn [existsb escapes orb prompt_events]; try reflexivity; apply IH.
    + cbn [fst snd]. rewrite ?existsb_app.
      cbn [existsb escapes orb prompt_events]. apply IH.
    + reflexivity.
Qed.




(** ** The renderer is monotone *)

Lemma SFcompare_le_le_trans (a x b : spec_float) (c1 c2 : comparison) :
  SFcompare a x = Some c1 -> c1 <> Gt ->
  SFcompare x b = Some c2 -> c2 <> Gt ->
  exists c3, SFcompare a b = Some c3 /\ c3 <> Gt.
Proof.
  destruct a as [sa|sa| |sa ma ea], x as [sx|sx| |sx mx ex],
           b as [sb|sb| |sb mb eb];
    try destruct sa; try destruct sx; try destruct sb; simpl;
    intros H1 Hc1 H2 Hc2;
    try discriminate;
    try (injection H1 as <-; congruence);
    try (injection H2 as <-; congruence);
    try (eexists; split; [reflexivity|discriminate]).
  all: injection H1 as H1; injection H2 as H2; subst c1 c2;
    eexists; (split; [reflexivity|]); PyFloatFacts.sf_cases.
Qed.

(** [t <= x] and [x <= y] give [t <= y]. *)
Lemma ge_le_trans (t x y : float) :
  PyFloat.ge x t = true -> (x <=? y)%float = true -> PyFloat.ge y t = true.
Proof.
  unfold PyFloat.ge. rewrite !leb_spec. unfold SFleb.
  destruct (SFcompare (Prim2SF t) (Prim2SF x)) as [c1|] eqn:E1;
    [|discriminate].
  destruct (SFcompare (Prim2SF x) (Prim2SF y)) as [c2|] eqn:E2;
    [|destruct c1; discriminate].
  intros H1 H2.
  assert (Hc1 : c1 <> Gt) by (destruct c1; congruence).
  assert (Hc2 : c2 <> Gt) by (destruct c2; congruence).
  destruct (SFcompare_le_le_trans _ _ _ _ _ E1 Hc1 E2 Hc2) as (c3 & -> & Hc3).
  destruct c3; congruence.
Qed.

(** A float that compares with something compares equal with itself: it
    is a number. *)
Lemma SFcompare_refl (t x : spec_float) (c : comparison) :
  SFcompare t x = Some c -> SFcompare x x = Some Eq.
Proof.
  destruct t as [st|st| |st mt et], x as [sx|sx| |sx mx ex];
    try destruct st; try destruct sx; simpl; intros H;
    try discriminate; try reflexivity;
    rewrite ?Z.compare_refl, ?Pos.compare_cont_refl; reflexivity.
Qed.

Lemma ge_number (t x : float) :
  PyFloat.ge x t = true -> (x <=? x)%float = true.
Proof.
  unfold PyFloat.ge. rewrite !leb_spec. unfold SFleb.
  destruct (SFcompare (Prim2SF t) (Prim2SF x)) as [c|] eqn:E; [|discriminate].
  intros _. now rewrite (SFcompare_refl _ _ _ E).
Qed.

(** X9. The renderer is total and monotone on all floats. Every level,
    the infinities and NaN included, is drawn as one of the three faces; a
    level that is not a number (it does not compare with itself) is drawn
    closed; and of two levels [x <= y] the face drawn for [y] is at least
    as open as the one for [x]: if [x] is drawn open so is [y], and if [y]
    is drawn closed so is [x]. *)
Theorem draw_is_monotone (x y : float) :
  (_draw x = assemble EYE_OPEN \/ _draw x = assemble EYE_HALF \/
   _draw x = assemble EYE_CLOSED) /\
  ((x <=? x)%float = false -> _draw x = assemble EYE_CLOSED) /\
  ((x <=? y)%float = true ->
   (_draw x = assemble EYE_OPEN -> _draw y = assemble EYE_OPEN) /\
   (_draw y = assemble EYE_CLOSED -> _draw x = assemble EYE_CLOSED)).
Proof.
  destruct faces_differ as (Hoh & Hhc & Hoc).
  split; [|split].
  - unfold _draw. destruct (PyFloat.ge x 0.66); [now left|].
    destruct (PyFloat.ge x 0.33); [right; now left|right; now right].
  - intros Hnan. unfold _draw.
    destruct (PyFloat.ge x 0.66) eqn:H66;
      [apply ge_number in H66; congruence|].
    destruct (PyFloat.ge x 0.33) eqn:H33;
      [apply ge_number in H33; congruence|].
    reflexivity.
  - intros Hxy. split.
    + unfold _draw. destruct (PyFloat.ge x 0.66) eqn:Hx.
      * intros _. now rewrite (ge_le_trans _ _ _ Hx Hxy).
      * destruct (PyFloat.ge x 0.33); intros H; exfalso;
          [now apply Hoh|now apply Hoc].
    + unfold _draw.
      destruct (PyFloat.ge y 0.66) eqn:Hy66;
        [intros H; exfalso; now apply Hoc|].
      destruct (PyFloat.ge y 0.33) eqn:Hy33;
        [intros H; exfalso; now apply Hhc|].
      intros _.
      destruct (PyFloat.ge x 0.66) eqn:Hx66;
        [rewrite (ge_le_trans _ _ _ Hx66 Hxy) in Hy66; discriminate|].
      destruct (PyFloat.ge x 0.33) eqn:Hx33;
        [rewrite (ge_le_trans _ _ _ Hx33 Hxy) in Hy33; discriminate|].
      reflexivity.
Qed.

(** Open from 0.7 up to infinity, and closed for NaN. *)
Lemma draw_is_monotone_witness :
  _draw infinity = assemble EYE_OPEN /\ _draw nan = assemble EYE_CLOSED.
Proof.
  split.
  - exact (proj1 (proj2 (proj2 (draw_is_monotone 0.7 infinity)) eq_refl)
             eq_refl).
  - exact (proj1 (proj2 (draw_is_monotone nan nan)) eq_refl).
Defined.

(** ** The commands on concrete lines *)

Example handle_remember_recall :
  let '(o1, s1, _) :=
    handle fair_weather "remember colour = dark blue" empty_session in
  let '(o2, _, _) := handle fair_weather "  RECALL colour " s1 in
  o1 = Returns (Some "Okay, remembered colour = 'dark blue'"%string) /\
  o2 = Returns (Some "colour = 'dark blue'"%string) /\
  s1 = {| memory := [("colour", "dark blue")]%string;
          disk := Some [("colour", "dark blue")]%string |}.
Proof. vm_compute. repeat split. Qed.

Example handle_blink_auto :
  handle fair_weather "blink_auto  OFF" empty_session
  = (Returns (Some "Auto-blink: OFF"%string), empty_session,
     [Animate (SetAuto false)]).
Proof. reflexivity. Qed.

Example handle_greets_this :
  fst (fst (handle fair_weather "try this" empty_session))
  = Returns (Some "Hello! Type 'help' for commands."%string).
Proof. reflexivity. Qed.

(** ** The dictionary *)

Lemma dict_get_set_same key val d : dict_get key (dict_set key val d) = Some val.
Proof.
  induction d as [|[k v] d IH]; simpl.
  - now rewrite String.eqb_refl.
  - destruct (String.eqb k key) eqn:E; simpl.
    + now rewrite String.eqb_refl.
    + now rewrite E.
Qed.

Lemma dict_get_set_other key val k d :
  k <> key -> dict_get k (dict_set key val d) = dict_get k d.
Proof.
  intros Hne. induction d as [|[k' v'] d IH]; simpl.
  - apply String.eqb_neq in Hne. rewrite String.eqb_sym in Hne.
    now rewrite Hne.
  - destruct (String.eqb k' key) eqn:E; simpl.
    + apply String.eqb_eq in E. subst k'.
      assert (H : String.eqb key k = false)
        by (apply String.eqb_neq; congruence).
      now rewrite H.
    + destruct (String.eqb k' k); [reflexivity|exact IH].
Qed.

Lemma dict_get_none_not_in key d :
  dict_get key d = None <-> ~ In key (map fst d).
Proof.
  induction d as [|[k v] d IH]; simpl.
  - tauto.
  - destruct (String.eqb k key) eqn:E.
    + apply String.eqb_eq in E. split; [discriminate|]. intros H.
      exfalso. apply H. now left.
    + apply String.eqb_neq in E. rewrite IH. tauto.
Qed.

Lemma dict_get_pop_same key d :
  well_formed d -> dict_get key (dict_pop key d) = None.
Proof.
  unfold well_formed. induction d as [|[k v] d IH]; simpl; intros Hwf.
  - reflexivity.
  - inversion Hwf as [|? ? Hnin Hwf']; subst.
    destruct (String.eqb k key) eqn:E; simpl.
    + apply String.eqb_eq in E. subst k. now apply dict_get_none_not_in.
    + rewrite E. now apply IH.
Qed.

Lemma dict_get_pop_other key k d :
  k <> key -> dict_get k (dict_pop key d) = dict_get k d.
Proof.
  intros Hne. induction d as [|[k' v'] d IH]; simpl; [reflexivity|].
  destruct (String.eqb k' key) eqn:E; simpl.
  - apply String.eqb_eq in E. subst k'.
    assert (H : String.eqb key k = false)
      by (apply String.eqb_neq; congruence).
    now rewrite H.
  - destruct (String.eqb k' k); [reflexivity|exact IH].
Qed.

Lemma dict_set_keys key val d :
  map fst (dict_set key val d) =
  match dict_get key d with
  | Some _ => map fst d
  | None => map fst d ++ [key]
  end.
Proof.
  induction d as [|[k v] d IH]; simpl; [reflexivity|].
  destruct (String.eqb k key) eqn:E; simpl.
  - apply String.eqb_eq in E. now subst.
  - rewrite IH. now destruct (dict_get key d).
Qed.

Lemma dict_pop_keys_incl key d k :
  In k (map fst (dict_pop key d)) -> In k (map fst d).
Proof.
  induction d as [|[k' v'] d IH]; simpl; [tauto|].
  destruct (String.eqb k' key); simpl; tauto.
Qed.

Lemma well_formed_set key val d :
  well_formed d -> well_formed (dict_set key val d).
Proof.
  unfold well_formed. rewrite dict_set_keys.
  destruct (dict_get key d) eqn:E; [tauto|].
  intros Hwf. apply dict_get_none_not_in in E.
  apply NoDup_app; [exact Hwf|repeat constructor; intros []|].
  intros k Hin [<-|[]]. contradiction.
Qed.

Lemma well_formed_pop key d :
  well_formed d -> well_formed (dict_pop key d).
Proof.
  unfold well_formed. induction d as [|[k v] d IH]; simpl; intros Hwf.
  - constructor.
  - inversion Hwf as [|? ? Hnin Hwf']; subst.
    destruct (String.eqb k key); [exact Hwf'|].
    simpl. constructor; [|now apply IH].
    intros Hin. apply Hnin. now apply (dict_pop_keys_incl key).
Qed.

Lemma dict_pop_absent key d : dict_get key d = None -> dict_pop key d = d.
Proof.
  induction d as [|[k v] d IH]; simpl; [reflexivity|].
  destruct (String.eqb k key); [discriminate|]. intros H. now rewrite IH.
Qed.

Lemma split_once_app sep a b :
  split_once sep a = None ->
  split_once sep (a ++ String sep b)%string = Some (a, b).
Proof.
  induction a as [|c a IH]; simpl.
  - now rewrite Ascii.eqb_refl.
  - destruct (Ascii.eqb c sep); [discriminate|].
    destruct (split_once sep a) as [[x y]|] eqn:E; [discriminate|].
    intros _. now rewrite IH.
Qed.

(** ** The memory commands *)

Section CommandFacts.

Variable strip : string -> string.
Variable lower : string -> string.
Variable repr : string -> string.

(** X10. What is remembered can be recalled. After
    [remember <key>=<value>] (the key is the text before the first [=], so
    the value may contain [=]), the memory holds the stripped value under
    the stripped key, also when writing the file failed; [recall] with any
    argument that strips to that key answers [key = repr(value)]; the other
    keys keep their values; and in the listing an old key keeps its place
    while a new one goes last. *)
Theorem remember_then_recall
  (ce : cmd_env) (key val arg : string) (s : session) :
  split_once "=" key = None ->
  strip key <> ""%string ->
  strip arg = strip key ->
  let s1 := snd (fst (cmd_remember strip repr ce
                        (key ++ String "=" val)%string s)) in
  fst (fst (cmd_recall strip repr arg s1))
    = Returns (Some (strip key ++ " = " ++ repr (strip val))%string) /\
  dict_get (strip key) (memory s1) = Some (strip val) /\
  (forall k, k <> strip key -> dict_get k (memory s1) = dict_get k (memory s)) /\
  map fst (memory s1) =
    match dict_get (strip key) (memory s) with
    | Some _ => map fst (memory s)
    | None => map fst (memory s) ++ [strip key]
    end.
Proof.
  intros Hsplit Hkey Harg s1.
  assert (Hmem : memory s1 = dict_set (strip key) (strip val) (memory s)).
  { unfold s1, cmd_remember. rewrite (split_once_app _ _ _ Hsplit).
    unfold save_memory. destruct (save_error ce); reflexivity. }
  rewrite Hmem. split; [|split; [|split]].
  - unfold cmd_recall. rewrite Harg.
    apply String.eqb_neq in Hkey. rewrite Hkey, Hmem, dict_get_set_same.
    reflexivity.
  - apply dict_get_set_same.
  - intros k Hk. now apply dict_get_set_other.
  - apply dict_set_keys.
Qed.

(** X11. What is forgotten is gone. On a memory with unique keys, after
    [forget <key>] a [recall] of that key answers that it is not in memory,
    whether or not it was there and whether or not writing the file failed;
    every other key keeps its value and the keys stay unique. When the key
    was not in memory, [forget] answers [No memory for ...] and changes
    neither the memory nor the file. *)
Theorem forget_then_recall (ce : cmd_env) (arg : string) (s : session) :
  well_formed (memory s) ->
  strip arg <> ""%string ->
  let s1 := snd (fst (cmd_forget strip repr ce arg s)) in
  fst (fst (cmd_recall strip repr arg s1))
    = Returns (Some ("I don't have " ++ repr (strip arg) ++ " in memory.")%string) /\
  (forall k, k <> strip arg -> dict_get k (memory s1) = dict_get k (memory s)) /\
  well_formed (memory s1) /\
  (dict_get (strip arg) (memory s) = None ->
   cmd_forget strip repr ce arg s
   = answer ("No memory for " ++ repr (strip arg))%string s []).
Proof.
  intros Hwf Hkey s1. apply String.eqb_neq in Hkey.
  assert (Hmem : memory s1 = dict_pop (strip arg) (memory s)).
  { unfold s1, cmd_forget. rewrite Hkey.
    destruct (dict_get (strip arg) (memory s)) eqn:E.
    - unfold save_memory. destruct (save_error ce); reflexivity.
    - cbn. now rewrite dict_pop_absent. }
  split; [|split; [|split]].
  - unfold cmd_recall. rewrite Hkey, Hmem, dict_get_pop_same by exact Hwf.
    reflexivity.
  - intros k Hk. rewrite Hmem. now apply dict_get_pop_other.
  - rewrite Hmem. now apply well_formed_pop.
  - intros Hnone. unfold cmd_forget. now rewrite Hkey, Hnone.
Qed.

(** X12. The empty key can be stored but not reached. [remember =<value>]
    stores the value under the empty key (when stripping the empty text
    gives the empty text, as it does in Python); but [recall] and [forget]
    refuse every argument that strips to the empty text with their usage
    line and change nothing, so that entry can be listed but neither
    recalled nor forgotten. *)
Theorem empty_key_is_unreachable
  (ce : cmd_env) (val arg : string) (s : session) :
  strip ""%string = ""%string ->
  strip arg = ""%string ->
  dict_get "" (memory (snd (fst (cmd_remember strip repr ce
                                   (String "=" val) s))))
    = Some (strip val) /\
  (forall s', cmd_recall strip repr arg s' = answer "Use: recall key" s' []) /\
  (forall s', cmd_forget strip repr ce arg s' = answer "Use: forget key" s' []).
Proof.
  intros Hempty Harg. split; [|split].
  - unfold cmd_remember. cbn [split_once]. rewrite Ascii.eqb_refl.
    rewrite Hempty. unfold save_memory.
    destruct (save_error ce); cbn; apply dict_get_set_same.
  - intros s'. unfold cmd_recall. now rewrite Harg.
  - intros s'. unfold cmd_forget. now rewrite Harg.
Qed.

End CommandFacts.

(** The three memory commands of the examples. *)
Lemma remember_then_recall_witness :
  fst (fst (cmd_recall ascii_strip quote " colour "
              (snd (fst (cmd_remember ascii_strip quote fair_weather
                           "colour = a=b" empty_session)))))
  = Returns (Some "colour = 'a=b'"%string).
Proof.
  apply (proj1 (remember_then_recall ascii_strip quote fair_weather
                  "colour " " a=b" " colour " empty_session
                  eq_refl ltac:(discriminate) eq_refl)).
Defined.

Lemma forget_then_recall_witness :
  fst (fst (cmd_recall ascii_strip quote "colour"
              (snd (fst (cmd_forget ascii_strip quote fair_weather "colour"
                           {| memory := [("colour", "blue")]%string;
                              disk := None |})))))
  = Returns (Some "I don't have 'colour' in memory."%string).
Proof.
  apply (proj1 (forget_then_recall ascii_strip quote fair_weather "colour"
                  {| memory := [("colour", "blue")]%string; disk := None |}
                  ltac:(repeat constructor; intros [])
                  ltac:(discriminate))).
Defined.

Lemma empty_key_is_unreachable_witness :
  dict_get "" (memory (snd (fst (cmd_remember ascii_strip quote fair_weather
                                   "= x" empty_session))))
  = Some "x"%string.
Proof.
  apply (proj1 (empty_key_is_unreachable ascii_strip quote fair_weather
                  " x" "  " empty_session eq_refl eq_refl)).
Defined.

(** ** The dispatcher *)

Section DispatcherFacts.

Variable strip : string -> string.
Variable lower : string -> string.
Variable repr : string -> string.

(** The three ways a command leaves the session: it answers (or asks to
    leave) and changes nothing; or it is [remember] or [forget]. *)
Lemma handle_command_cases ce line s :
  (snd (fst (handle_command strip lower repr ce line s)) = s /\
   ((exists res,
       fst (fst (handle_command strip lower repr ce line s)) = Returns res) \/
    fst (fst (handle_command strip lower repr ce line s)) = RaisesSystemExit)) \/
  (command_word strip lower line = "remember"%string /\
   handle_command strip lower repr ce line s
   = cmd_remember strip repr ce (snd (parse lower (strip line))) s) \/
  (command_word strip lower line = "forget"%string /\
   handle_command strip lower repr ce line s
   = cmd_forget strip repr ce (snd (parse lower (strip line))) s).
Proof.
  unfold handle_command, command_word.
  destruct (String.eqb (strip line) "");
    [left; split; [reflexivity|left; eexists; reflexivity]|].
  destruct (parse lower (strip line)) as [cmd arg]. cbn [fst snd].
  repeat match goal with
  | |- context [if String.eqb cmd "remember" then _ else _] =>
      destruct (String.eqb cmd "remember") eqn:?;
      [right; left; split;
       [now apply String.eqb_eq|reflexivity]|]
  | |- context [if String.eqb cmd "forget" then _ else _] =>
      destruct (String.eqb cmd "forget") eqn:?;
      [right; right; split;
       [now apply String.eqb_eq|reflexivity]|]
  | |- context [if ?c then _ else _] =>
      destruct c;
      try (left; split; [reflexivity|left; eexists; reflexivity]);
      try (left; split; [reflexivity|right; reflexivity])
  end.
  all: try (left; split; [reflexivity|left; eexists; reflexivity]).
  - unfold cmd_recall. destruct (String.eqb _ ""); [|destruct (dict_get _ _)];
      left; split; try reflexivity; left; eexists; reflexivity.
  - unfold cmd_list. destruct (memory s);
      left; split; try reflexivity; left; eexists; reflexivity.
Qed.

Lemma cmd_remember_effects ce arg s :
  snd (cmd_remember strip repr ce arg s) = [].
Proof.
  unfold cmd_remember, save_memory.
  destruct (split_once "=" arg) as [[k v]|]; [|reflexivity].
  destruct (save_error ce); reflexivity.
Qed.

Lemma cmd_forget_effects ce arg s :
  snd (cmd_forget strip repr ce arg s) = [].
Proof.
  unfold cmd_forget, save_memory.
  destruct (String.eqb _ ""); [reflexivity|].
  destruct (dict_get _ _); [|reflexivity].
  destruct (save_error ce); reflexivity.
Qed.

Lemma cmd_recall_effects arg s : snd (cmd_recall strip repr arg s) = [].
Proof.
  unfold cmd_recall. destruct (String.eqb _ ""); [reflexivity|].
  destruct (dict_get _ _); reflexivity.
Qed.

Lemma cmd_list_effects s : snd (cmd_list repr s) = [].
Proof. unfold cmd_list. destruct (memory s); reflexivity. Qed.

(** What a command does besides answering, by its command word. *)
Lemma handle_command_effects ce line s :
  let fx := snd (handle_command strip lower repr ce line s) in
  fx = [] \/
  (exists text, fx = [Speak text] /\
     (command_word strip lower line = "say"%string \/
      command_word strip lower line = "joke"%string)) \/
  (fx = [Animate TriggerBlink] /\
   command_word strip lower line = "blink"%string) \/
  (exists enabled, fx = [Animate (SetAuto enabled)] /\
     command_word strip lower line = "blink_auto"%string).
Proof.
  unfold handle_command, command_word.
  destruct (String.eqb (strip line) ""); [now left|].
  destruct (parse lower (strip line)) as [cmd arg]. cbn [fst snd].
  repeat match goal with
  | |- context [if ?c then _ else _] => destruct c eqn:?
  end;
  rewrite ?cmd_remember_effects, ?cmd_forget_effects, ?cmd_recall_effects,
    ?cmd_list_effects;
  first
    [ now left
    | right; left; eexists; split; [reflexivity|];
      first [left; now apply String.eqb_eq | right; now apply String.eqb_eq]
    | right; right; left; split; [reflexivity|now apply String.eqb_eq]
    | right; right; right; eexists; split;
      [reflexivity|now apply String.eqb_eq] ].
Qed.

Lemma file_in_step_same s o : raised o = false -> file_in_step s o s.
Proof.
  intros Ho. unfold file_in_step. rewrite Ho.
  split; [discriminate|]. split; [congruence|auto].
Qed.

Lemma cmd_remember_file ce arg s :
  file_in_step s (fst (fst (cmd_remember strip repr ce arg s)))
    (snd (fst (cmd_remember strip repr ce arg s))).
Proof.
  unfold cmd_remember, save_memory.
  destruct (split_once "=" arg) as [[k v]|]; cbn;
    [|now apply file_in_step_same].
  destruct (save_error ce) as [err|]; cbn; unfold file_in_step; cbn.
  - split; [reflexivity|]. split; discriminate.
  - split; [discriminate|]. split; reflexivity.
Qed.

Lemma cmd_forget_file ce arg s :
  file_in_step s (fst (fst (cmd_forget strip repr ce arg s)))
    (snd (fst (cmd_forget strip repr ce arg s))).
Proof.
  unfold cmd_forget, save_memory.
  destruct (String.eqb _ ""); cbn; [now apply file_in_step_same|].
  destruct (dict_get _ _); cbn; [|now apply file_in_step_same].
  destruct (save_error ce) as [err|]; cbn; unfold file_in_step; cbn.
  - split; [reflexivity|]. split; discriminate.
  - split; [discriminate|]. split; reflexivity.
Qed.

(** X13. The file follows the memory. A command that raises an
    [Exception] leaves [memory.json] as it was; a command that does not
    raise and changes the memory has written the new memory to the file;
    so if the file holds the memory before a command that does not raise,
    it holds it afterwards. After a save that failed the file lags behind
    the memory, and the next command that changes the memory without
    raising brings it up to date. *)
Theorem file_follows_memory (ce : cmd_env) (line : string) (s : session) :
  file_in_step s
    (fst (fst (handle_command strip lower repr ce line s)))
    (snd (fst (handle_command strip lower repr ce line s))).
Proof.
  destruct (handle_command_cases ce line s)
    as [[Hsame Ho] | [[_ ->] | [_ ->]]].
  - rewrite Hsame. apply file_in_step_same.
    destruct Ho as [[res ->] | ->]; reflexivity.
  - apply cmd_remember_file.
  - apply cmd_forget_file.
Qed.

(** X14. What a command leaves alone. A line whose command word is
    neither [remember] nor [forget] changes neither the memory nor the
    file. The animator is called only by [blink] (one [trigger_blink]) and
    by [blink_auto] (one [set_auto]), never [stop]; and only [say] and
    [joke] speak. *)
Theorem commands_leave_alone (ce : cmd_env) (line : string) (s : session) :
  (command_word strip lower line <> "remember"%string ->
   command_word strip lower line <> "forget"%string ->
   snd (fst (handle_command strip lower repr ce line s)) = s) /\
  (forall c,
     In c (animator_calls (snd (handle_command strip lower repr ce line s))) ->
     (c = TriggerBlink /\ command_word strip lower line = "blink"%string) \/
     (exists enabled, c = SetAuto enabled /\
        command_word strip lower line = "blink_auto"%string)) /\
  (forall text,
     In (Speak text) (snd (handle_command strip lower repr ce line s)) ->
     command_word strip lower line = "say"%string \/
     command_word strip lower line = "joke"%string).
Proof.
  split; [|split].
  - intros Hr Hf.
    destruct (handle_command_cases ce line s)
      as [[Hsame _] | [[H _] | [H _]]]; [exact Hsame|contradiction..].
  - intros c Hin.
    destruct (handle_command_effects ce line s)
      as [H | [(t & H & _) | [(H & Hw) | (b & H & Hw)]]];
      cbv zeta in H; rewrite H in Hin; cbn in Hin; try contradiction.
    + destruct Hin as [<-|[]]. left. now split.
    + destruct Hin as [<-|[]]. right. exists b. now split.
  - intros text Hin.
    destruct (handle_command_effects ce line s)
      as [H | [(t & H & Hw) | [(H & _) | (b & H & _)]]];
      cbv zeta in H; rewrite H in Hin; cbn in Hin;
      try contradiction; try (destruct Hin as [Hin|[]]; discriminate).
    exact Hw.
Qed.

Lemma handle_command_outcome ce line s :
  fst (fst (handle_command strip lower repr ce line s)) <> RaisesBaseException.
Proof.
  destruct (handle_command_cases ce line s)
    as [[_ [[res ->] | ->]] | [[_ ->] | [_ ->]]]; try discriminate.
  - unfold cmd_remember, save_memory.
    destruct (split_once "=" _) as [[k v]|]; cbn; [|discriminate].
    destruct (save_error ce); cbn; discriminate.
  - unfold cmd_forget, save_memory.
    destruct (String.eqb _ ""); cbn; [discriminate|].
    destruct (dict_get _ _); cbn; [|discriminate].
    destruct (save_error ce); cbn; discriminate.
Qed.

Lemma session_script_outcomes inputs : forall s,
  forallb (fun x => negb (existsb escapes (turn_events x)))
    (session_script strip lower repr inputs s) = true.
Proof.
  induction inputs as [|[l ce|] rest IH]; intros s; cbn [session_script].
  - reflexivity.
  - pose proof (handle_command_outcome ce (rstrip_nl l) s) as Ho.
    destruct (handle_command strip lower repr ce (rstrip_nl l) s)
      as [[o s'] fx]. cbn [fst] in Ho. cbn [forallb]. rewrite IH.
    unfold turn_events.
    rewrite !existsb_app, escapes_acts, escapes_response.
    destruct o; try reflexivity. now contradiction Ho.
  - cbn [forallb]. now rewrite IH.
Qed.

Lemma main_loop_while_events_in stdin : forall e w ev,
  In ev (events (main_loop_while stdin) e w) ->
  In ev prompt_events \/ ev = EvReadline ""%string \/ ev = EvWrite Other nl \/
  exists x, In x stdin /\ In ev (turn_events x).
Proof.
  induction stdin as [|x rest IH]; intros e w ev; unfold events.
  - rewrite main_loop_while_nil. cbn [snd]. intros H.
    apply in_app_or in H as [H|H]; [now left|].
    destruct H as [<-|[<-|[]]]; auto.
  - rewrite main_loop_while_cons.
    assert (Hrest : forall w', In ev (events (main_loop_while rest) e w') ->
              In ev prompt_events \/ ev = EvReadline ""%string \/
              ev = EvWrite Other nl \/
              exists y, In y (x :: rest) /\ In ev (turn_events y)).
    { intros w' H. apply IH in H as [H|[H|[H|(y & Hy & H)]]]; auto.
      do 3 right. exists y. split; [now right|exact H]. }
    assert (Hturn : In ev (turn_events x) ->
              In ev prompt_events \/ ev = EvReadline ""%string \/
              ev = EvWrite Other nl \/
              exists y, In y (x :: rest) /\ In ev (turn_events y)).
    { intros H. do 3 right. exists x. split; [now left|exact H]. }
    destruct x as [line o acts| |].
    + destruct (String.eqb line "") eqn:Hline.
      * apply String.eqb_eq in Hline. subst line. cbn [snd]. intros H.
        apply in_app_or in H as [H|H]; [now left|].
        destruct H as [<-|[<-|[]]]; auto.
      * cbv zeta.
        destruct o as [[res|]| |err|]; cbn [snd]; intros H.
        all: apply in_app_or in H as [H|H]; [now left|].
        all: try (rewrite !app_assoc in H; apply in_app_or in H as [H|H];
                  [|now apply Hrest in H]).
        all: apply Hturn; unfold turn_events; apply in_or_app; right;
          rewrite ?app_assoc in *; rewrite ?app_nil_r; exact H.
    + cbn [snd]. intros H.
      apply in_app_or in H as [H|H]; [now left|].
      apply in_app_or in H as [H|H]; [|now apply Hrest in H].
      apply Hturn. unfold turn_events. apply in_or_app. now right.
    + cbn [snd]. intros H. apply in_app_or in H as [H|H]; [now left|].
      apply Hturn. unfold turn_events. apply in_or_app. now right.
Qed.

Lemma main_loop_while_breaks stdin e w :
  forallb (fun x => negb (existsb escapes (turn_events x))) stdin = true ->
  existsb escapes (events (main_loop_while stdin) e w) = false.
Proof.
  intros Hno.
  destruct (existsb escapes (events (main_loop_while stdin) e w)) eqn:Hx;
    [|reflexivity].
  apply existsb_exists in Hx as (ev & Hin & Hev).
  apply main_loop_while_events_in in Hin as [H|[->|[->|(x & Hx & H)]]];
    try discriminate.
  - cbn in H. intuition (subst; discriminate).
  - rewrite forallb_forall in Hno. specialize (Hno x Hx).
    apply negb_true_iff in Hno.
    assert (Ht : existsb escapes (turn_events x) = true)
      by (apply existsb_exists; now exists ev).
    congruence.
Qed.

(** X15. No command line lets an exception out of the session loop. For
    every sequence of typed lines and interrupts, from every memory, the
    [while True] loop of [main_loop] over the outcomes and actions of
    [handle_command] is left by [break]: no command raises a
    [BaseException] that the loop does not catch. The shutdown is reached,
    and [main_loop] returns normally unless the [save_memory] of the
    shutdown raises. *)
Theorem session_loop_catches_every_command
  (inputs : list typed) (s : session) (save : option string)
  (e : env) (w : world) :
  result (main_loop_while (session_script strip lower repr inputs s)) e w
    = Break /\
  (forall line,
     ~ In (EvHandle line RaisesBaseException)
          (events (main_loop (session_script strip lower repr inputs s) save)
             e w)) /\
  result (main_loop (session_script strip lower repr inputs s) save) e w
    = match save with None => ReturnsNormally | Some _ => Raises end.
Proof.
  pose proof (main_loop_while_breaks
                (session_script strip lower repr inputs s) e w
                (session_script_outcomes inputs s)) as Hesc.
  assert (Hb : result (main_loop_while
                         (session_script strip lower repr inputs s)) e w
               = Break)
    by (now rewrite main_loop_while_propagates, Hesc).
  destruct (main_loop_spec (session_script strip lower repr inputs s) save e w)
    as (Hres & Hev & _).
  split; [exact Hb|split].
  - intros line Hin. rewrite Hev in Hin. apply in_app_or in Hin as [Hin|Hin].
    + assert (Ht : existsb escapes
                     (events (main_loop_while
                                (session_script strip lower repr inputs s))
                        e w) = true)
        by (apply existsb_exists; eexists; split; [exact Hin|reflexivity]).
      congruence.
    + cbn in Hin. intuition discriminate.
  - rewrite Hres, Hb. reflexivity.
Qed.

(** The forced-blink flag survives the auto-blink statement. *)
Lemma auto_blink_keeps_request now last e w :
  _blink (animator w) = true ->
  _blink (animator (final (auto_blink now last) e w)) = true.
Proof.
  intros Hb. unfold final. rewrite auto_blink_spec. cbv zeta.
  destruct (_ && _); cbn [fst snd animator].
  - apply blink_apply_calls. cbn. apply blink_apply_calls.
    now apply blink_apply_calls.
  - now apply blink_apply_calls.
Qed.

(** X16. The [blink] command reaches the animator. A line whose command
    word is [blink] answers [(blinked)], leaves the memory alone and calls
    [trigger_blink] once; whatever else the other threads call, the next
    iteration of the animation loop then finds the flag, clears it once and
    runs one forced blink, after the auto-blink of that iteration if one is
    due. *)
Theorem blink_command_blinks_once
  (ce : cmd_env) (line : string) (s : session)
  (a : EyeAnimator) (c : nat) (e : env) (last : float) :
  strip line <> ""%string ->
  command_word strip lower line = "blink"%string ->
  let r := handle_command strip lower repr ce line s in
  let w := {| animator := apply_calls (animator_calls (snd r)) a;
              cursor := c |} in
  r = answer "(blinked)" s [Animate TriggerBlink] /\
  clears (events (_run_iteration last) e w) = 1 /\
  exists auto,
    writes (events (_run_iteration last) e w)
    = (if auto : bool then blink_writes else []) ++ blink_writes.
Proof.
  intros Hne Hcw r w.
  assert (Hr : r = answer "(blinked)" s [Animate TriggerBlink]).
  { subst r. unfold handle_command, command_word in *.
    apply String.eqb_neq in Hne. rewrite Hne.
    destruct (parse lower (strip line)) as [cmd arg]. cbn in Hcw. subst cmd.
    reflexivity. }
  split; [exact Hr|].
  assert (Hw : _blink (animator w) = true).
  { subst w. rewrite Hr. reflexivity. }
  destruct (run_iteration_writes e w last) as (Hwr & Hcl). cbv zeta in Hwr, Hcl.
  assert (Hf : result (is_set Blink) e
                 (final (auto_blink (result time e w) last) e (final time e w))
               = true).
  { cbn -[auto_blink]. apply blink_apply_calls.
    apply auto_blink_keeps_request. cbn. now apply blink_apply_calls. }
  rewrite Hf in Hwr, Hcl. split; [exact Hcl|].
  eexists. exact Hwr.
Qed.

(** X17. [blink_auto] opens and closes the gate of the animator. With an
    argument that, stripped and lowered, is one of [on], [1], [true],
    [yes], the command calls [set_auto(True)] and the gate is open; with
    one of [off], [0], [false], [no] it calls [set_auto(False)], and as
    long as nobody re-enables it every run of the animation loop runs
    forced blinks only; any other argument calls nothing. The memory is
    never touched. *)
Theorem blink_auto_sets_the_gate
  (ce : cmd_env) (line : string) (s : session) :
  strip line <> ""%string ->
  command_word strip lower line = "blink_auto"%string ->
  let r := handle_command strip lower repr ce line s in
  let word := lower (strip (snd (parse lower (strip line)))) in
  snd (fst r) = s /\
  (among word ["on"; "1"; "true"; "yes"]%string = true ->
   r = answer "Auto-blink: ON" s [Animate (SetAuto true)] /\
   forall a, _auto (apply_calls (animator_calls (snd r)) a) = true) /\
  (among word ["off"; "0"; "false"; "no"]%string = true ->
   r = answer "Auto-blink: OFF" s [Animate (SetAuto false)] /\
   forall fuel last e a c,
     never_enables e ->
     only_forced_blinks
       (events (_run_loop fuel last) e
          {| animator := apply_calls (animator_calls (snd r)) a;
             cursor := c |})) /\
  (among word ["on"; "1"; "true"; "yes"]%string = false ->
   among word ["off"; "0"; "false"; "no"]%string = false ->
   r = answer "Use: blink_auto on|off" s []).
Proof.
  intros Hne Hcw r word.
  assert (Hr : r =
    if among word ["on"; "1"; "true"; "yes"]%string then
      answer "Auto-blink: ON" s [Animate (SetAuto true)]
    else if among word ["off"; "0"; "false"; "no"]%string then
      answer "Auto-blink: OFF" s [Animate (SetAuto false)]
    else answer "Use: blink_auto on|off" s []).
  { subst r word. unfold handle_command, command_word in *.
    apply String.eqb_neq in Hne. rewrite Hne.
    destruct (parse lower (strip line)) as [cmd arg]. cbn in Hcw. subst cmd.
    reflexivity. }
  assert (Hoff : among word ["off"; "0"; "false"; "no"]%string = true ->
                 among word ["on"; "1"; "true"; "yes"]%string = false).
  { clearbody word. clear. unfold among. cbn [existsb]. intros H.
    repeat (apply orb_true_iff in H as [H|H]);
      try (apply String.eqb_eq in H; subst word; reflexivity).
    discriminate. }
  split; [|split; [|split]].
  - rewrite Hr. repeat destruct (among _ _); reflexivity.
  - intros Hon. rewrite Hr, Hon. split; [reflexivity|]. intros a. reflexivity.
  - intros Hw. rewrite Hr, (Hoff Hw), Hw. split; [reflexivity|].
    intros fuel last e a c He. now apply run_loop_gate_closed.
  - intros Hon Hw. rewrite Hr, Hon, Hw. reflexivity.
Qed.

End DispatcherFacts.

(** A [remember] whose save fails: the file still holds the empty
    dictionary. *)
Lemma file_follows_memory_witness :
  disk (snd (fst (handle foul_weather "remember colour = blue"
                    empty_session_saved))) = Some [].
Proof.
  exact (proj1 (file_follows_memory ascii_strip ascii_lower quote
                  foul_weather "remember colour = blue" empty_session_saved)
           eq_refl).
Defined.

Lemma blink_command_blinks_once_witness :
  handle fair_weather " Blink" empty_session
    = answer "(blinked)" empty_session [Animate TriggerBlink] /\
  clears (events (_run_iteration 0.0) quiet w_triggered) = 1.
Proof.
  pose proof (blink_command_blinks_once ascii_strip ascii_lower quote
                fair_weather " Blink" empty_session __init__ 0 quiet
                0.0%float) as H.
  cbv zeta in H.
  destruct H as (Hr & Hc & _); [discriminate|reflexivity|].
  split; [exact Hr|exact Hc].
Defined.

Lemma blink_auto_sets_the_gate_witness :
  handle fair_weather "blink_auto OFF " empty_session
    = answer "Auto-blink: OFF" empty_session [Animate (SetAuto false)].
Proof.
  pose proof (blink_auto_sets_the_gate ascii_strip ascii_lower quote
                fair_weather "blink_auto OFF " empty_session) as H.
  cbv zeta in H.
  destruct H as (_ & _ & Hoff & _); [discriminate|reflexivity|].
  exact (proj1 (Hoff eq_refl)).
Defined.
